(** * cdoc2json / addcdocs: doc comments between C sources and a JSON sidecar

    A shallow embedding of the two Go programs of the repository
    ([main.go], the extractor [cdoc2json], and [cmd/addcdocs/main.go], the
    injector [addcdocs]) and the theorems that settle what their
    specification says about them.

    Conventions of the embedding:
    - a Go [string] is a [string] of 8-bit characters;
    - a [uint32] is a [Z] in [0, 2^32) with the wrap-around written out
      ([add32], [sub32], [to_u32]);
    - a Go [map] is a [gmap];
    - loggers ([dbg], [warn], [log.Fatalf]) append events to an explicit log;
    - the external collaborators (the Go scanner behind [parseComments],
      clang behind [cc.ParseFile], the file system) are inputs of the
      functions that call them. *)

From Stdlib Require Import ZArith Ascii String Lia.
From stdpp Require Import base gmap strings list sorting.

Local Open Scope Z_scope.

(** ** Machine integers *)

Definition u32_mod : Z := 2 ^ 32.

(** Conversion [uint32(x)]. *)
Definition to_u32 (x : Z) : Z := x mod u32_mod.

Definition add32 (a b : Z) : Z := (a + b) mod u32_mod.
Definition sub32 (a b : Z) : Z := (a - b) mod u32_mod.

(** The values a [uint32] variable can hold. *)
Definition is_u32 (x : Z) : Prop := 0 <= x < u32_mod.

(** ** Package [strings] of the Go standard library, as the programs use it *)

Module strings.

Definition nl : ascii := "010"%char.

(** The one-byte string ["\n"]. *)
Definition NL : string := String nl EmptyString.

(** [strings.HasPrefix(s, prefix)]. *)
Fixpoint HasPrefix (s pre : string) {struct pre} : bool :=
  match pre with
  | EmptyString => true
  | String p pre' =>
      match s with
      | EmptyString => false
      | String c s' => if Ascii.eqb c p then HasPrefix s' pre' else false
      end
  end.

(** [strings.Count(s, sep)] for a one-byte separator. *)
Fixpoint Count (s : string) (sep : ascii) : nat :=
  match s with
  | EmptyString => O
  | String c s' => if Ascii.eqb c sep then S (Count s' sep) else Count s' sep
  end.

(** [strings.Split(s, sep)] for a one-byte separator: the pieces between
    the separators, [Count s sep + 1] of them (one empty piece for the
    empty string). *)
Fixpoint Split (s : string) (sep : ascii) : list string :=
  match s with
  | EmptyString => [EmptyString]
  | String c s' =>
      if Ascii.eqb c sep then EmptyString :: Split s' sep
      else match Split s' sep with
           | [] => [String c EmptyString]
           | piece :: pieces => String c piece :: pieces
           end
  end.

(** [strings.Join(elems, sep)]. *)
Fixpoint Join (elems : list string) (sep : string) : string :=
  match elems with
  | [] => EmptyString
  | [e] => e
  | e :: rest => e +:+ sep +:+ Join rest sep
  end.

End strings.

(** ** Package [cc]: locations and declaration trees of the external parser *)

Module cc.

Record Location := mkLocation {
  File : string;
  Line : Z;  (* uint32 *)
  Col : Z    (* uint32 *)
}.

(** The discriminant [n.Body.Kind()] of a clang cursor, as far as the
    programs look at it. *)
Inductive CursorKind :=
| Cursor_VarDecl
| Cursor_FunctionDecl
| Cursor_Namespace
| Cursor_Other.

(** A node of the tree: [Kind] and [Spelling] stand for [n.Body.Kind()] and
    [n.Body.Spelling()]. *)
#[warnings="-register-all"]
Inductive Node := mkNode {
  Kind : CursorKind;
  Spelling : string;
  Loc : Location;
  Children : list Node
}.

(** The nodes [cc.Walk] visits, in the order of its visits: every node once,
    a node before its children (the parser collaborator's "linear top-down
    traversal"). The package is external; [findDecls] sorts what it collects
    on the way, so of this order only the nodes visited matter below. *)
Fixpoint preorder (n : Node) : list Node :=
  n :: flat_map preorder (Children n).

(** [cc.Walk(root, visit)], with the effect of [visit] on the state it
    closes over made explicit. *)
Definition Walk {S : Type} (root : Node) (visit : Node -> S -> S) (s : S) : S :=
  fold_left (fun acc n => visit n acc) (preorder root) s.

End cc.

(** ** Package [docs] *)

Module docs.

Record Comment := mkComment {
  Lit : string;
  Loc : cc.Location
}.

(** The field [Comment] of the Go struct is [Comm] here (the record type
    already has that name). *)
Record DocComment := mkDocComment {
  Decl : cc.Node;
  Comm : Comment
}.

End docs.

(** ** Logging

    Both programs write to standard error through [dbg], [warn] and
    [log.Fatalf]; the embedding records what is written as a list of events,
    oldest first. *)

Definition error := string.

Inductive LogEvent :=
| DbgParsing (srcPath : string)            (* dbg.Printf("parsing %q", srcPath) *)
| DbgCreating (output : string)            (* dbg.Printf("creating %q", output) *)
| WarnPresent (ident old new : string)     (* warn.Printf("doc comment for %q already present; old %q, new %q", ...) *)
| WarnScan (line col : Z) (msg : string)   (* warn.Printf("pos: %v, msg: %v", pos, msg) *)
| FatalError (err : error).                (* log.Fatalf("%+v", err), which exits with status 1 *)

(** ** The extractor, [main.go] *)

(** [less(a, b)]: line first, then column; the file name plays no part. *)
Definition less (a b : cc.Location) : bool :=
  if cc.Line a <? cc.Line b then true
  else if cc.Line a >? cc.Line b then false
  else cc.Col a <? cc.Col b.

(** [notAfter loc x y]: [y] is not [less] than [x]. *)
Definition notAfter {A : Type} (loc : A -> cc.Location) (x y : A) : Prop :=
  less (loc y) (loc x) = false.

#[global] Instance notAfter_dec {A : Type} (loc : A -> cc.Location) :
  RelDecision (notAfter loc) := fun x y => decide (less (loc y) (loc x) = false).

(** [sort.Slice(xs, func(i, j) bool { return less(loc(xs[i]), loc(xs[j])) })].
    Go promises a permutation of the slice in which no element is [less]
    than one before it, and no particular order among elements that compare
    equal; the theorems below rely on nothing more. *)
Definition sort_Slice {A : Type} (loc : A -> cc.Location) (xs : list A) : list A :=
  merge_sort (notAfter loc) xs.

(** [isConsequtiveLineComments(a, b)]. *)
Definition isConsequtiveLineComments (a b : docs.Comment) : bool :=
  if negb (strings.HasPrefix (docs.Lit a) "//") then false
  else if negb (strings.HasPrefix (docs.Lit b) "//") then false
  else add32 (cc.Line (docs.Loc a)) (to_u32 (Z.of_nat (strings.Count (docs.Lit a) strings.nl)))
       =? sub32 (cc.Line (docs.Loc b)) 1.

(** [mergeLineComment(a, b)]. *)
Definition mergeLineComment (a b : docs.Comment) : docs.Comment :=
  docs.mkComment (docs.Lit a +:+ strings.NL +:+ docs.Lit b) (docs.Loc a).

(** The inner loop of [mergeLineComments], [for j := i + 1; j < len(comments); j++],
    run over [rest = comments[i+1:]]: it returns the accumulated [a] and how
    many times the body executed [i++]. *)
Fixpoint mergeInner (a : docs.Comment) (rest : list docs.Comment) : docs.Comment * nat :=
  match rest with
  | [] => (a, O)
  | b :: rest' =>
      if isConsequtiveLineComments a b then
        let '(a', k) := mergeInner (mergeLineComment a b) rest' in (a', S k)
      else mergeInner a rest'
  end.

(** The outer loop of [mergeLineComments] over [comments[i:]]. The inner loop
    advances the outer index [i] once per merge, so the outer loop resumes
    [k] elements further on whichever elements were merged: [skip] counts the
    elements still to be stepped over. *)
Fixpoint mergeOuter (skip : nat) (comments : list docs.Comment) : list docs.Comment :=
  match comments with
  | [] => []
  | a :: rest =>
      match skip with
      | S skip' => mergeOuter skip' rest
      | O => let '(a', k) := mergeInner a rest in a' :: mergeOuter k rest
      end
  end.

Definition mergeLineComments (comments : list docs.Comment) : list docs.Comment :=
  mergeOuter O comments.

(** [commEndLoc] as [addDocComments] computes it: the comment's location with
    the number of newlines of its literal added to the line. *)
Definition commEndLoc (comment : docs.Comment) : cc.Location :=
  let loc := docs.Loc comment in
  cc.mkLocation (cc.File loc)
    (add32 (cc.Line loc) (to_u32 (Z.of_nat (strings.Count (docs.Lit comment) strings.nl))))
    (cc.Col loc).

(** The inner loop of [addDocComments], [for i < len(comments)], for one
    declaration, run over [comments[i:]]: it returns the doc comments it
    appended and the comments from the new cursor on. [continue loop] leaves
    the cursor where it is. *)
Fixpoint scanComments (decl : cc.Node) (comments : list docs.Comment)
    : list docs.DocComment * list docs.Comment :=
  match comments with
  | [] => ([], [])
  | comment :: rest =>
      let commEndLoc := commEndLoc comment in
      if less (cc.Loc decl) commEndLoc then ([], comments)
      else
        let '(found, rest') := scanComments decl rest in
        (if sub32 (cc.Line (cc.Loc decl)) (cc.Line commEndLoc) <=? 1
         then docs.mkDocComment decl comment :: found
         else found, rest')
  end.

(** [addDocComments(decls, comments)]; the cursor [i] is the suffix
    [comments[i:]]. *)
Fixpoint addDocComments (decls : list cc.Node) (comments : list docs.Comment)
    : list docs.DocComment :=
  match decls with
  | [] => []
  | decl :: decls' =>
      let '(found, rest) := scanComments decl comments in
      found ++ addDocComments decls' rest
  end.

(** The kinds both programs keep. *)
Definition isDeclKind (k : cc.CursorKind) : bool :=
  match k with
  | cc.Cursor_VarDecl | cc.Cursor_FunctionDecl => true
  | _ => false
  end.

(** [findDecls(root)]. *)
Definition findDecls (root : cc.Node) : list cc.Node :=
  let visit (n : cc.Node) (decls : list cc.Node) :=
    if isDeclKind (cc.Kind n) then decls ++ [n] else decls in
  let decls := cc.Walk root visit [] in
  sort_Slice cc.Loc decls.

(** What the Go scanner hands to [parseComments]: the result of one call of
    [s.Scan()], with the messages it passed to the error handler meanwhile. *)
Inductive Token := EOF | COMMENT | OtherToken.

Record Position := mkPosition {
  Filename : string;
  PLine : Z;    (* int *)
  Column : Z    (* int *)
}.

Record Scanned := mkScanned {
  pos : Position;
  tok : Token;
  lit : string;
  errs : list (Position * string)
}.

(** The error handler [eh] of [parseComments]. *)
Definition eh (e : Position * string) : list LogEvent :=
  if String.eqb (snd e) "illegal character U+0023 '#'" then []
  else [WarnScan (PLine (fst e)) (Column (fst e)) (snd e)].

(** The scanning loop of [parseComments]: it stops at the first [EOF] (the
    scanner yields [EOF] once its input is used up). *)
Fixpoint scanLoop (toks : list Scanned) : list LogEvent * list docs.Comment :=
  match toks with
  | [] => ([], [])
  | t :: rest =>
      let warned := flat_map eh (errs t) in
      match tok t with
      | EOF => (warned, [])
      | COMMENT =>
          let loc := cc.mkLocation (Filename (pos t)) (to_u32 (PLine (pos t)))
                       (to_u32 (Column (pos t))) in
          let '(w, comments) := scanLoop rest in
          (warned ++ w, docs.mkComment (lit t) loc :: comments)
      | OtherToken =>
          let '(w, comments) := scanLoop rest in (warned ++ w, comments)
      end
  end.

(** [parseComments(srcPath)]; [ReadFile] is what [ioutil.ReadFile] gave, the
    file's contents being seen through the scanner. [errors.WithStack] only
    decorates the error and is the identity here. *)
Definition parseComments (ReadFile : error + list Scanned)
    : list LogEvent * (error + list docs.Comment) :=
  match ReadFile with
  | inl err => ([], inl err)
  | inr toks =>
      let '(w, comments) := scanLoop toks in
      (w, inr (sort_Slice docs.Loc comments))
  end.

(** The state of the extractor: the map [commentFromIdent] and what was
    logged so far. *)
Record Extractor := mkExtractor {
  commentFromIdent : gmap string string;
  logged : list LogEvent
}.

(** The body of the loop over [docComments] in [parse]: warn when the
    identifier has an entry, then store. *)
Definition put (docComment : docs.DocComment) (st : Extractor) : Extractor :=
  let ident := cc.Spelling (docs.Decl docComment) in
  let new := docs.Lit (docs.Comm docComment) in
  let logged' :=
    match commentFromIdent st !! ident with
    | Some old => logged st ++ [WarnPresent ident old new]
    | None => logged st
    end in
  mkExtractor (<[ident := new]> (commentFromIdent st)) logged'.

(** One source file as the extractor meets it: its path, what reading and
    scanning it gives, and what [cc.ParseFile] gives. *)
Record Source := mkSource {
  srcPath : string;
  ReadFile : error + list Scanned;
  ParseFile : error + cc.Node
}.

(** [parse(srcPath, commentFromIdent, clangArgs...)]. *)
Definition parse (src : Source) (st : Extractor) : Extractor * option error :=
  let st := mkExtractor (commentFromIdent st) (logged st ++ [DbgParsing (srcPath src)]) in
  let '(w, scanned) := parseComments (ReadFile src) in
  let st := mkExtractor (commentFromIdent st) (logged st ++ w) in
  match scanned with
  | inl err => (st, Some err)
  | inr comments =>
      let comments := mergeLineComments comments in
      match ParseFile src with
      | inl err => (st, Some err)
      | inr root =>
          let decls := findDecls root in
          let docComments := addDocComments decls comments in
          (fold_left (fun st docComment => put docComment st) docComments st, None)
      end
  end.

(** How a run of a program ends: the exit status, the file written (path
    and contents) if any, and the log. *)
Record Exit := mkExit {
  status : Z;
  written : option (string * gmap string string);
  stderr : list LogEvent
}.

(** The loop of [main] over [flag.Args()]: the first error ends it. *)
Fixpoint parseAll (srcs : list Source) (st : Extractor) : Extractor * option error :=
  match srcs with
  | [] => (st, None)
  | src :: srcs' =>
      match parse src st with
      | (st', Some err) => (st', Some err)
      | (st', None) => parseAll srcs' st'
      end
  end.

(** [main()] of the extractor, from the return of [flag.Parse()] on: [args]
    is [flag.Args()], [output] the value of the flag of that name.
    [WriteFile] is the result of
    [jsonutil.WriteFile(output, commentFromIdent)]. *)
Definition main (args : list Source) (output : string) (WriteFile : option error) : Exit :=
  match parseAll args (mkExtractor ∅ []) with
  | (st, Some err) => mkExit 1 None (logged st ++ [FatalError err])
  | (st, None) =>
      let logged := logged st ++ [DbgCreating output] in
      match WriteFile with
      | Some err => mkExit 1 None (logged ++ [FatalError err])
      | None => mkExit 0 (Some (output, commentFromIdent st)) logged
      end
  end.

(** ** The injector, [cmd/addcdocs/main.go] *)

(** [SourceFile]; [File] is the root of the tree, [srcFile.File.Root] (a
    file for which the parser returned no tree at all is outside the
    model). *)
Record SourceFile := mkSourceFile {
  Path : string;
  Buf : string;
  File : cc.Node
}.

(** [line[1:]]. *)
Definition tail1 (line : string) : string :=
  match line with
  | EmptyString => EmptyString
  | String _ rest => rest
  end.

(** [normalizeComment(comment)]. *)
Definition normalizeComment (comment : string) : string :=
  let lines := strings.Split comment strings.nl in
  let lines :=
    map (fun line => if strings.HasPrefix line "///" then tail1 line else line) lines in
  strings.Join lines strings.NL.

(** [findGlobalDecls(file)]: the first loop leaves in [root] the last child
    of kind namespace, or the root itself. *)
Definition findGlobalDecls (file : cc.Node) : list cc.Node :=
  let root :=
    fold_left
      (fun root child =>
         match cc.Kind child with cc.Cursor_Namespace => child | _ => root end)
      (cc.Children file) file in
  filter (fun child => isDeclKind (cc.Kind child) = true) (cc.Children root).

(** The map [comments] of [addComments], from line number to comment. *)
Definition lineComments (decls : list cc.Node) (docComments : gmap string string)
    : gmap Z string :=
  fold_left
    (fun comments decl =>
       match docComments !! cc.Spelling decl with
       | Some comment => <[cc.Line (cc.Loc decl) := normalizeComment comment]> comments
       | None => comments
       end)
    decls ∅.

(** The second loop of [addComments] over [lines[i:]]: what it writes to
    [newSrc]. *)
Fixpoint writeLines (comments : gmap Z string) (i : nat) (lines : list string) : string :=
  match lines with
  | [] => EmptyString
  | line :: rest =>
      let lineNr := to_u32 (Z.of_nat i + 1) in
      (match comments !! lineNr with
       | Some comment => comment +:+ strings.NL
       | None => EmptyString
       end) +:+ (line +:+ strings.NL) +:+ writeLines comments (S i) rest
  end.

(** [addComments(srcFile, docComments)]. *)
Definition addComments (srcFile : SourceFile) (docComments : gmap string string)
    : string * bool :=
  let oldSrc := Buf srcFile in
  let lines := strings.Split oldSrc strings.nl in
  let decls := findGlobalDecls (File srcFile) in
  let comments := lineComments decls docComments in
  let newSrc := writeLines comments O lines in
  let change := negb (String.eqb oldSrc newSrc) in
  (newSrc, change).

(** ** Definitions on the side of the specification *)

(** The comment [addComments] writes before the line numbered [lineNr], in
    the words of its specification: the normalised comment of the last kept
    declaration that starts on that line and whose identifier the mapping
    knows. *)
Definition insertedBefore (decls : list cc.Node) (docComments : gmap string string)
    (lineNr : Z) : option string :=
  last (omap (fun decl =>
                if decide (cc.Line (cc.Loc decl) = lineNr)
                then normalizeComment <$> docComments !! cc.Spelling decl
                else None) decls).

(** The mapping the extractor builds from one source file, starting from the
    empty one. *)
Definition extract (src : Source) : gmap string string :=
  commentFromIdent (fst (parse src (mkExtractor ∅ []))).

(** The doc comments [parse] finds in a file that scans and parses. *)
Definition docCommentsOf (toks : list Scanned) (root : cc.Node) : list docs.DocComment :=
  addDocComments (findDecls root)
    (mergeLineComments (sort_Slice docs.Loc (snd (scanLoop toks)))).

(** All the strings of a list, one after the other. *)
Definition concatAll (pieces : list string) : string :=
  foldr String.append EmptyString pieces.

#[global] Instance CursorKind_eq_dec : EqDecision cc.CursorKind.
Proof. solve_decision. Defined.

(** The scope whose children [findGlobalDecls] keeps: the last child of the
    root that is a namespace, and the root itself when it has none. *)
Definition globalScope (file : cc.Node) : cc.Node :=
  default file
    (last (filter (fun child => cc.Kind child = cc.Cursor_Namespace) (cc.Children file))).

(** The nodes of kind variable or function declaration among [nodes], in
    the order of [nodes]. *)
Definition declsAmong (nodes : list cc.Node) : list cc.Node :=
  filter (fun n => isDeclKind (cc.Kind n) = true) nodes.

(** What makes [addDocComments] pair [decl] with [comment]: the declaration
    does not start before the comment's end, and the wrapped difference of
    the lines is at most one. *)
Definition adopts (decl : cc.Node) (comment : docs.Comment) : Prop :=
  less (cc.Loc decl) (commEndLoc comment) = false ∧
  sub32 (cc.Line (cc.Loc decl)) (cc.Line (commEndLoc comment)) <= 1.

(** The merge as the specification words it: going through the comments
    once, a comment that is consecutive to the one accumulated so far joins
    it, and any other comment closes the run and starts the next. *)
Fixpoint mergeRunsFrom (a : docs.Comment) (rest : list docs.Comment) : list docs.Comment :=
  match rest with
  | [] => [a]
  | b :: rest' =>
      if isConsequtiveLineComments a b then mergeRunsFrom (mergeLineComment a b) rest'
      else a :: mergeRunsFrom b rest'
  end.

Definition mergeRuns (comments : list docs.Comment) : list docs.Comment :=
  match comments with
  | [] => []
  | a :: rest => mergeRunsFrom a rest
  end.

(** The line on which a comment ends, as an integer. *)
Definition endLine (c : docs.Comment) : Z :=
  cc.Line (docs.Loc c) + Z.of_nat (strings.Count (docs.Lit c) strings.nl).

(** A comment whose lines are 1-based and fit [uint32]. *)
Definition fits (c : docs.Comment) : Prop :=
  1 <= cc.Line (docs.Loc c) ∧ endLine c < u32_mod.

(** [b] starts on a later line than the one on which [a] ends. *)
Definition before (a b : docs.Comment) : Prop :=
  endLine a < cc.Line (docs.Loc b).

(** Comments that fit, each starting below the end of the one before it. *)
Definition separated (comments : list docs.Comment) : Prop :=
  Forall fits comments ∧ Sorted before comments.

(** *** Example inputs *)

Module Examples.
Local Open Scope string_scope.

Definition at_ (line col : Z) : cc.Location := cc.mkLocation "foo.c" line col.

(** The file [// does foo\nint foo() {}\n] of the specification's scenario:
    its text, what the scanner yields for it, and its tree. *)
Definition foo_text : string :=
  "// does foo" +:+ strings.NL +:+ "int foo() {}" +:+ strings.NL.

Definition foo_toks : list Scanned :=
  [ mkScanned (mkPosition "foo.c" 1 1) COMMENT "// does foo" [];
    mkScanned (mkPosition "foo.c" 2 1) OtherToken "int" [];
    mkScanned (mkPosition "foo.c" 2 5) OtherToken "foo" [];
    mkScanned (mkPosition "foo.c" 2 8) OtherToken "" [];
    mkScanned (mkPosition "foo.c" 2 9) OtherToken "" [];
    mkScanned (mkPosition "foo.c" 2 11) OtherToken "" [];
    mkScanned (mkPosition "foo.c" 2 12) OtherToken "" [];
    mkScanned (mkPosition "foo.c" 3 1) EOF "" [] ].

Definition foo_decl : cc.Node := cc.mkNode cc.Cursor_FunctionDecl "foo" (at_ 2 5) [].

Definition foo_root : cc.Node := cc.mkNode cc.Cursor_Other "foo.c" (at_ 0 0) [foo_decl].

Definition foo_source : Source := mkSource "foo.c" (inr foo_toks) (inr foo_root).

(** A file with one variable and no comment, [int x;\n], and a mapping that
    does not know [x]. *)
Definition x_text : string := "int x;" +:+ strings.NL.

Definition x_root : cc.Node :=
  cc.mkNode cc.Cursor_Other "x.c" (at_ 0 0) [cc.mkNode cc.Cursor_VarDecl "x" (at_ 1 5) []].

Definition y_docs : gmap string string := {[ "y" := "// the y" ]}.

(** A missing source file: reading it fails, so nothing is scanned or
    parsed. *)
Definition gone_source : Source :=
  mkSource "gone.c" (inl "open gone.c: no such file or directory")
    (inl "unable to parse gone.c").

(** Two block comments before a variable, [/* a */\n/* b */ int x;]. *)
Definition block_a : docs.Comment := docs.mkComment "/* a */" (at_ 1 1).
Definition block_b : docs.Comment := docs.mkComment "/* b */" (at_ 2 1).
Definition x_decl : cc.Node := cc.mkNode cc.Cursor_VarDecl "x" (at_ 2 13) [].

(** A line comment, then a block comment and a line comment on the next
    line, [// a\n/* c */ // d]. *)
Definition line_a : docs.Comment := docs.mkComment "// a" (at_ 1 1).
Definition block_c : docs.Comment := docs.mkComment "/* c */" (at_ 2 1).
Definition line_d : docs.Comment := docs.mkComment "// d" (at_ 2 9).

(** A block comment on the third line. *)
Definition block_b' : docs.Comment := docs.mkComment "/* b */" (at_ 3 1).

(** A function with a local variable, [void f() {\n  int local;\n}]. *)
Definition local_decl : cc.Node := cc.mkNode cc.Cursor_VarDecl "local" (at_ 2 7) [].
Definition f_decl : cc.Node :=
  cc.mkNode cc.Cursor_FunctionDecl "f" (at_ 1 6)
    [cc.mkNode cc.Cursor_Other "" (at_ 1 10)
       [cc.mkNode cc.Cursor_Other "" (at_ 2 3) [local_decl]]].
Definition f_root : cc.Node := cc.mkNode cc.Cursor_Other "foo.c" (at_ 0 0) [f_decl].

(** A tree whose children are not in the order of their line numbers, as
    when a declaration comes from an included file: [late] is at line 9 of
    the header, [early] at line 3 of the file itself. *)
Definition late_decl : cc.Node :=
  cc.mkNode cc.Cursor_VarDecl "late" (cc.mkLocation "foo.h" 9 5) [].
Definition early_decl : cc.Node := cc.mkNode cc.Cursor_VarDecl "early" (at_ 3 5) [].
Definition include_root : cc.Node :=
  cc.mkNode cc.Cursor_Other "foo.c" (at_ 0 0) [late_decl; early_decl].

End Examples.

(** ** The rest of the injector, [cmd/addcdocs/main.go] *)

Module addcdocs.

(** [insert(ss, pos, s)]. The slice expressions [ss[:pos:pos]] and [ss[pos:]]
    panic when [pos] is negative or beyond the length of [ss] ([None]);
    the capacity given to the first one makes [append] copy, so [ss] itself
    is left as it was. *)
Definition insert (ss : list string) (pos : Z) (s : string) : option (list string) :=
  if (0 <=? pos) && (pos <=? Z.of_nat (length ss))
  then Some (take (Z.to_nat pos) ss ++ s :: drop (Z.to_nat pos) ss)
  else None.

(** What the injector writes to its standard streams and how it can stop. *)
Inductive Event :=
| Printed (docComments : gmap string string)  (* pretty.Println("docComments:", docComments) *)
| Warned (err : error)                        (* warn.Printf("%+v", err) *)
| DbgAdding (srcPath : string)                (* dbg.Printf("adding comments to %q", srcPath) *)
| Fatal (err : error)                         (* log.Fatalf("%+v", err): exit status 1 *)
| NilDereference.                             (* run-time panic: exit status 2 *)

(** The world the injector runs in: the contents of the files, what the
    external parser returns for a path in a given state of the files (a
    tree or [nil], and an error or [nil]), and the error, if any, with which
    writing to a path fails. *)
Record World := mkWorld {
  ParseFile : gmap string string -> string -> option cc.Node * option error;
  WriteError : string -> option error
}.

(** The error of [ioutil.ReadFile] for a path that holds no file. *)
Definition noSuchFile (srcPath : string) : error :=
  "open " +:+ srcPath +:+ ": no such file or directory".

(** A [*SourceFile] as [parseSourceFile] returns it: [File] may be [nil]. *)
Record SourceFilePtr := mkSourceFilePtr {
  Path : string;
  Buf : string;
  File : option cc.Node
}.

(** [parseSourceFile(srcPath, clangArgs)]. *)
Definition parseSourceFile (w : World) (files : gmap string string) (srcPath : string)
    : SourceFilePtr * option error :=
  match files !! srcPath with
  | None => (mkSourceFilePtr srcPath EmptyString None, Some (noSuchFile srcPath))
  | Some buf =>
      let '(file, err) := ParseFile w files srcPath in
      (mkSourceFilePtr srcPath buf file, err)
  end.

(** The state of a run: the files and what was written to the streams. *)
Record Run := mkRun {
  files : gmap string string;
  events : list Event
}.

(** The body of the loop of [main] over [srcPaths]: the new state, and the
    exit status when the run stops there. [addComments] reads
    [srcFile.File.Root], which panics on a [nil] file. *)
Definition processFile (w : World) (docComments : gmap string string) (srcPath : string)
    (st : Run) : Run * option Z :=
  let '(srcFile, err) := parseSourceFile w (files st) srcPath in
  let st :=
    match err with
    | Some e => mkRun (files st) (events st ++ [Warned e])
    | None => st
    end in
  match File srcFile with
  | None => (mkRun (files st) (events st ++ [NilDereference]), Some 2)
  | Some root =>
      let '(src, change) :=
        addComments (mkSourceFile (Path srcFile) (Buf srcFile) root) docComments in
      if change then
        let st := mkRun (files st) (events st ++ [DbgAdding srcPath]) in
        match WriteError w srcPath with
        | Some e => (mkRun (files st) (events st ++ [Fatal e]), Some 1)
        | None => (mkRun (<[srcPath := src]> (files st)) (events st), None)
        end
      else (st, None)
  end.

Fixpoint processFiles (w : World) (docComments : gmap string string)
    (srcPaths : list string) (st : Run) : Run * Z :=
  match srcPaths with
  | [] => (st, 0)
  | srcPath :: srcPaths' =>
      match processFile w docComments srcPath st with
      | (st', Some code) => (st', code)
      | (st', None) => processFiles w docComments srcPaths' st'
      end
  end.

(** [main()] of the injector; [parsed] is what [parseDocComments(jsonPath)]
    gave. The result is the final state and the exit status. *)
Definition main (w : World) (parsed : error + gmap string string)
    (srcPaths : list string) (files : gmap string string) : Run * Z :=
  match parsed with
  | inl err => (mkRun files [Fatal err], 1)
  | inr docComments =>
      processFiles w docComments srcPaths (mkRun files [Printed docComments])
  end.

End addcdocs.

(** ** More definitions on the side of the specification *)

(** The declaration that consumes [comment]: the first one, in the order
    given, that does not start before the comment's end. *)
Definition consumer (decls : list cc.Node) (comment : docs.Comment) : option cc.Node :=
  find (fun decl => negb (less (cc.Loc decl) (commEndLoc comment))) decls.

(** What a declaration makes of a comment it passes: a doc comment when it
    starts on the line of the comment's end or on the next. *)
Definition adoptIf (decl : cc.Node) (comment : docs.Comment) : option docs.DocComment :=
  if sub32 (cc.Line (cc.Loc decl)) (cc.Line (commEndLoc comment)) <=? 1
  then Some (docs.mkDocComment decl comment)
  else None.

(** The doc comment [comment] gives rise to, if any: its consumer, when that
    one starts on the line of the comment's end or on the next. *)
Definition docCommentFor (decls : list cc.Node) (comment : docs.Comment)
    : option docs.DocComment :=
  match consumer decls comment with
  | Some decl => adoptIf decl comment
  | None => None
  end.

(** The comment [parseComments] makes of a token. *)
Definition commentOfToken (t : Scanned) : docs.Comment :=
  docs.mkComment (lit t)
    (cc.mkLocation (Filename (pos t)) (to_u32 (PLine (pos t))) (to_u32 (Column (pos t)))).

Definition isCommentToken (t : Scanned) : Prop := tok t = COMMENT.

#[global] Instance Token_eq_dec : EqDecision Token.
Proof. solve_decision. Defined.

(** The message the error handler of [parseComments] drops. *)
Definition hashMessage : string := "illegal character U+0023 '#'".

(** A source file the extractor can read and the external parser accepts. *)
Definition parses (src : Source) : Prop :=
  (∃ toks, ReadFile src = inr toks) ∧ (∃ root, ParseFile src = inr root).

(** The doc comments the extractor finds in a source file; none in a file
    it cannot read or parse. *)
Definition docCommentsOfSource (src : Source) : list docs.DocComment :=
  match ReadFile src, ParseFile src with
  | inr toks, inr root => docCommentsOf toks root
  | _, _ => []
  end.

(** The paths of the files a run of the injector says it rewrites. *)
Definition rewritten (events : list addcdocs.Event) : list string :=
  omap (fun e => match e with addcdocs.DbgAdding srcPath => Some srcPath | _ => None end)
    events.

(** How the files stand after a run that rewrote the files [named]: no file
    has come or gone, every named file is longer than it was, every other
    file is as it was. *)
Definition grown (named : list string) (before after : gmap string string) : Prop :=
  ∀ p, match before !! p, after !! p with
       | Some old, Some new =>
           if decide (p ∈ named) then (String.length old < String.length new)%nat
           else old = new
       | None, None => True
       | _, _ => False
       end.

(** *** Example runs of the injector *)

Module Runs.

(** The tree of [int foo() {}\n]. *)
Definition root : cc.Node :=
  cc.mkNode cc.Cursor_Other "foo.c" (Examples.at_ 0 0)
    [cc.mkNode cc.Cursor_FunctionDecl "foo" (Examples.at_ 1 5) []].

(** A parser that returns this tree whatever it is asked, and files that can
    always be written. *)
Definition world : addcdocs.World :=
  addcdocs.mkWorld (fun _ _ => (Some root, None)) (fun _ => None).

(** [foo.c] without its comment, and a mapping that documents [foo]. *)
Definition files : gmap string string := {[ "foo.c" := "int foo() {}" +:+ strings.NL ]}.

Definition foo_docs : gmap string string := {[ "foo" := "/// does foo" ]}.

End Runs.

(** *** More example inputs *)

Module Cases.

(** [// c\nint a; int b;]: one line comment, two variables on the next
    line. *)
Definition line_c : docs.Comment := docs.mkComment "// c" (Examples.at_ 1 1).
Definition a_decl : cc.Node := cc.mkNode cc.Cursor_VarDecl "a" (Examples.at_ 2 5) [].
Definition b_decl : cc.Node := cc.mkNode cc.Cursor_VarDecl "b" (Examples.at_ 2 12) [].

(** A block comment that begins at column 30 of the first line, after the
    variable [y], and ends on the second, followed there by a block comment
    and the variable [z]:
    [int y;                       /* a\n */ /* c */ int z;]. *)
Definition long_a : docs.Comment :=
  docs.mkComment ("/* a" +:+ strings.NL +:+ " */") (Examples.at_ 1 30).
Definition block_c : docs.Comment := docs.mkComment "/* c */" (Examples.at_ 2 5).
Definition y_decl : cc.Node := cc.mkNode cc.Cursor_VarDecl "y" (Examples.at_ 1 5) [].
Definition z_decl : cc.Node := cc.mkNode cc.Cursor_VarDecl "z" (Examples.at_ 2 17) [].

End Cases.

(** The comments [bs] join [a] one after the other, each consecutive, as
    [isConsequtiveLineComments] has it, to what [a] has become by then. *)
Fixpoint glued (a : docs.Comment) (bs : list docs.Comment) : Prop :=
  match bs with
  | [] => True
  | b :: bs' => isConsequtiveLineComments a b = true ∧ glued (mergeLineComment a b) bs'
  end.

(** The comment made of [a] and of the comments [bs] merged into it: the
    literals joined by newlines, at the position of [a]. *)
Definition joined (part : docs.Comment * list docs.Comment) : docs.Comment :=
  docs.mkComment (strings.Join (docs.Lit (fst part) :: (docs.Lit <$> snd part)) strings.NL)
    (docs.Loc (fst part)).

(** * Theorems *)

(** ** Strings *)

Section string_facts.
Import strings.
Local Open Scope string_scope.
Local Open Scope nat_scope.
Local Arguments String.append : simpl nomatch.

Lemma sapp_nil_r (s : string) : s +:+ "" = s.
Proof. induction s as [|c s IH]; simpl; [done | by rewrite IH]. Qed.

Lemma sapp_assoc (s t u : string) : (s +:+ t) +:+ u = s +:+ (t +:+ u).
Proof. induction s as [|c s IH]; simpl; [done | by rewrite IH]. Qed.

Lemma length_sapp (s t : string) :
  String.length (s +:+ t) = String.length s + String.length t.
Proof. induction s as [|c s IH]; simpl; [done | by rewrite IH]. Qed.

Lemma Split_nonempty (s : string) (sep : ascii) : Split s sep ≠ [].
Proof.
  destruct s as [|c s]; simpl; [done |].
  destruct (Ascii.eqb c sep); [done |]. by destruct (Split s sep).
Qed.

Lemma length_Split (s : string) (sep : ascii) :
  length (Split s sep) = S (Count s sep).
Proof.
  induction s as [|c s IH]; simpl; [done |].
  destruct (Ascii.eqb c sep); simpl; [by rewrite IH |].
  destruct (Split s sep); simpl in *; [done | lia].
Qed.

(** No piece of [Split] contains the separator. *)
Lemma Count_Split (s : string) (sep : ascii) :
  Forall (fun piece => Count piece sep = 0) (Split s sep).
Proof.
  induction s as [|c s IH]; simpl.
  - by repeat constructor.
  - destruct (Ascii.eqb c sep) eqn:E.
    + by constructor.
    + destruct (Split s sep) as [|piece pieces].
      * repeat constructor. simpl. by rewrite E.
      * inversion IH; subst. constructor; [|done]. simpl. by rewrite E.
Qed.

Lemma Join_cons (e : string) (rest : list string) (sep : string) :
  rest ≠ [] → Join (e :: rest) sep = e +:+ sep +:+ Join rest sep.
Proof. by destruct rest. Qed.

Lemma Join_Split (s : string) : Join (Split s nl) NL = s.
Proof.
  induction s as [|c s IH]; simpl; [done |].
  destruct (Ascii.eqb c nl) eqn:E.
  - apply Ascii.eqb_eq in E as ->.
    rewrite Join_cons by apply Split_nonempty. simpl. by rewrite IH.
  - pose proof (Split_nonempty s nl) as Hne.
    destruct (Split s nl) as [|piece pieces]; [done |].
    destruct pieces as [|p2 pieces].
    + simpl in *. by rewrite IH.
    + rewrite Join_cons in IH by done. rewrite Join_cons by done.
      by rewrite <- IH.
Qed.

(** Splitting what [Join] glued gives the pieces back, when no piece holds a
    newline. *)
Lemma Split_Join (lines : list string) :
  lines ≠ [] → Forall (fun line => Count line nl = 0) lines →
  Split (Join lines NL) nl = lines.
Proof.
  assert (Hone : ∀ line tl, Count line nl = 0 →
            Split (line +:+ tl) nl =
            match Split tl nl with
            | [] => [line]
            | piece :: pieces => (line +:+ piece) :: pieces
            end).
  { induction line as [|c line IH]; intros tl Hc; simpl.
    - pose proof (Split_nonempty tl nl). by destruct (Split tl nl).
    - simpl in Hc. destruct (Ascii.eqb c nl); [done |].
      rewrite IH by done. by destruct (Split tl nl). }
  induction lines as [|line lines IH]; intros Hne Hall; [done |].
  inversion Hall as [|? ? Hline Hrest]; subst.
  destruct lines as [|l2 lines].
  - simpl. specialize (Hone line "" Hline). rewrite sapp_nil_r in Hone.
    rewrite Hone. simpl. by rewrite sapp_nil_r.
  - rewrite Join_cons by done. rewrite Hone by done.
    change (NL +:+ ?t) with (String nl t). cbn [Split].
    rewrite Ascii.eqb_refl. rewrite IH by done. by rewrite sapp_nil_r.
Qed.

Lemma HasPrefix_app (pre rest : string) : HasPrefix (pre +:+ rest) pre = true.
Proof.
  induction pre as [|c pre IH]; simpl.
  - reflexivity.
  - by rewrite Ascii.eqb_refl.
Qed.

End string_facts.

(** ** The injector *)

Section injector_facts.
Import strings.
Local Open Scope string_scope.
Local Arguments String.append : simpl nomatch.

Lemma tail1_no_newline (line : string) :
  Count line nl = 0%nat → Count (tail1 line) nl = 0%nat.
Proof.
  destruct line as [|c line]; simpl; [done |].
  by destruct (Ascii.eqb c nl).
Qed.

(** [normalizeComment] works line by line. *)
Lemma Split_normalizeComment (comment : string) :
  Split (normalizeComment comment) nl =
  map (fun line => if HasPrefix line "///" then tail1 line else line) (Split comment nl).
Proof.
  unfold normalizeComment. apply Split_Join.
  - pose proof (Split_nonempty comment nl). by destruct (Split comment nl); simpl.
  - apply Forall_fmap. eapply Forall_impl; [apply Count_Split |].
    intros line Hline. unfold compose. cbv beta in *. destruct (HasPrefix line "///"); [|done].
    by apply tail1_no_newline.
Qed.

Lemma writeLines_empty (s : string) (i : nat) :
  writeLines ∅ i (Split s nl) = s +:+ NL.
Proof.
  revert i. induction s as [|c s IH]; intros i; simpl.
  - by rewrite lookup_empty.
  - destruct (Ascii.eqb c nl) eqn:E.
    + apply Ascii.eqb_eq in E as ->. cbn [writeLines].
      rewrite lookup_empty, IH. reflexivity.
    + specialize (IH i). pose proof (Split_nonempty s nl) as Hne.
      destruct (Split s nl) as [|piece pieces]; [done |].
      cbn [writeLines] in *. rewrite lookup_empty in *.
      change ("" +:+ ?t) with t in *.
      rewrite sapp_assoc in *. simpl. by rewrite <- IH.
Qed.

Lemma length_writeLines (comments : gmap Z string) (i : nat) (lines : list string) :
  (String.length (writeLines ∅ i lines) <= String.length (writeLines comments i lines))%nat.
Proof.
  revert i. induction lines as [|line lines IH]; intros i; [done |].
  cbn [writeLines]. rewrite lookup_empty, !length_sapp.
  specialize (IH (S i)). simpl String.length at 1. lia.
Qed.

(** X1. [addComments] never reports "no change": whatever it inserts, it ends
    every piece of the split in a newline, one more than the text had. *)
Lemma addComments_changes (srcFile : SourceFile) (docComments : gmap string string) :
  snd (addComments srcFile docComments) = true.
Proof.
  unfold addComments. cbn [snd]. apply negb_true_iff, String.eqb_neq.
  intros Heq. apply (f_equal String.length) in Heq.
  pose proof (length_writeLines
    (lineComments (findGlobalDecls (File srcFile)) docComments) 0
    (Split (Buf srcFile) nl)) as Hlen.
  rewrite writeLines_empty, length_sapp in Hlen. simpl in Hlen. lia.
Qed.

End injector_facts.

Section injector_claims.
Import strings.
Local Open Scope string_scope.
Local Arguments String.append : simpl nomatch.

(** C8. For every stored comment, [normalizeComment] keeps the number of
    lines and their order, turns a line ["///" ++ rest] into ["//" ++ rest]
    (one leading slash less, whatever [rest] is), and copies every line that
    does not begin with ["///"] unchanged. *)
Theorem normalizeComment_strips_one_slash (comment : string) :
  let lines := Split comment nl in
  let out := Split (normalizeComment comment) nl in
  length out = length lines ∧
  ∀ (i : nat) (line : string), lines !! i = Some line →
    (∀ rest, line = "///" +:+ rest → out !! i = Some ("//" +:+ rest)) ∧
    (HasPrefix line "///" = false → out !! i = Some line).
Proof.
  intros lines out. subst lines out. rewrite Split_normalizeComment.
  split; [apply length_map |].
  intros i line Hi.
  change (map ?f ?l) with (f <$> l). rewrite list_lookup_fmap, Hi. cbn [fmap option_fmap option_map].
  split.
  - intros rest ->. rewrite HasPrefix_app. reflexivity.
  - intros ->. reflexivity.
Qed.

(** C9. When the map from line numbers to comments is empty, [addComments]
    returns the original text with one newline appended, and [change] is
    [true]. *)
Theorem addComments_no_insertion (srcFile : SourceFile) (docComments : gmap string string) :
  lineComments (findGlobalDecls (File srcFile)) docComments = ∅ →
  addComments srcFile docComments = (Buf srcFile +:+ NL, true).
Proof.
  intros Hempty. unfold addComments.
  rewrite Hempty, writeLines_empty. f_equal.
  apply negb_true_iff, String.eqb_neq. intros Heq.
  apply (f_equal String.length) in Heq. rewrite length_sapp in Heq.
  simpl in Heq. lia.
Qed.

Lemma addComments_no_insertion_witness :
  addComments (mkSourceFile "foo.c" Examples.foo_text Examples.foo_root) ∅
  = (Examples.foo_text +:+ NL, true).
Proof.
  apply (addComments_no_insertion
           (mkSourceFile "foo.c" Examples.foo_text Examples.foo_root) ∅).
  vm_compute. reflexivity.
Defined.

(** C5. On a file none of whose declarations the mapping knows,
    [addComments] returns the text with a newline appended and reports a
    change. *)
Theorem addComments_unmatched_reports_change :
  addComments (mkSourceFile "x.c" Examples.x_text Examples.x_root) Examples.y_docs
  = ("int x;" +:+ NL +:+ NL, true).
Proof. vm_compute. reflexivity. Qed.

End injector_claims.

Section roundtrip.
Import strings.
Local Open Scope string_scope.
Local Arguments String.append : simpl nomatch.

(** The map [comments] of [addComments] holds, for each line, the comment of
    the last declaration that wrote to it. *)
Lemma lineComments_lookup (decls : list cc.Node) (docComments : gmap string string)
    (lineNr : Z) :
  lineComments decls docComments !! lineNr = insertedBefore decls docComments lineNr.
Proof.
  unfold lineComments, insertedBefore.
  assert (Hgen : ∀ acc : gmap Z string,
    fold_left
      (fun comments decl =>
         match docComments !! cc.Spelling decl with
         | Some comment => <[cc.Line (cc.Loc decl) := normalizeComment comment]> comments
         | None => comments
         end) decls acc !! lineNr =
    match last (omap (fun decl =>
                  if decide (cc.Line (cc.Loc decl) = lineNr)
                  then normalizeComment <$> docComments !! cc.Spelling decl
                  else None) decls) with
    | Some c => Some c
    | None => acc !! lineNr
    end).
  { induction decls as [|decl decls IH]; intros acc; [done |].
    cbn [fold_left omap list_omap]. rewrite IH.
    destruct (decide (cc.Line (cc.Loc decl) = lineNr)) as [Heq | Hne].
    - destruct (docComments !! cc.Spelling decl) as [comment|]; cbn [fmap option_fmap option_map].
      + rewrite last_cons.
        destruct (last _); [done |]. by rewrite Heq, lookup_insert_eq.
      + done.
    - destruct (docComments !! cc.Spelling decl) as [comment|]; [|done].
      destruct (last _); [done |]. by rewrite lookup_insert_ne. }
  rewrite Hgen, lookup_empty. by destruct (last _).
Qed.

(** What the second loop of [addComments] writes, piece by piece. *)
Lemma writeLines_chunks (comments : gmap Z string) (i : nat) (lines : list string) :
  writeLines comments i lines =
  concatAll (imap (fun j line =>
               match comments !! to_u32 (Z.of_nat (i + j) + 1) with
               | Some comment => comment +:+ NL
               | None => ""
               end +:+ line +:+ NL) lines).
Proof.
  revert i. induction lines as [|line lines IH]; intros i; [done |].
  cbn [writeLines imap concatAll foldr]. rewrite Nat.add_0_r, IH.
  etrans; [| symmetry; apply sapp_assoc]. do 2 f_equal.
  unfold concatAll. f_equal. apply imap_ext. intros j x _.
  unfold compose. by rewrite Nat.add_succ_r.
Qed.

(** Whatever the loop of [parse] leaves in the mapping was there before or is
    the literal of one of the doc comments, under the identifier of its
    declaration. *)
Lemma put_all_lookup (docComments : list docs.DocComment) (st : Extractor)
    (ident comment : string) :
  commentFromIdent (fold_left (fun st docComment => put docComment st) docComments st)
    !! ident = Some comment →
  commentFromIdent st !! ident = Some comment ∨
  ∃ dc, dc ∈ docComments ∧ cc.Spelling (docs.Decl dc) = ident ∧
        docs.Lit (docs.Comm dc) = comment.
Proof.
  revert st. induction docComments as [|dc dcs IH]; intros st H; [by left |].
  cbn [fold_left] in H. apply IH in H as [H | (dc' & Hin & Hid & Hlit)].
  - unfold put in H. cbn [commentFromIdent] in H.
    destruct (decide (cc.Spelling (docs.Decl dc) = ident)) as [Heq | Hne].
    + rewrite Heq, lookup_insert_eq in H. injection H as <-.
      right. exists dc. split; [left | done].
    + rewrite lookup_insert_ne in H by done. by left.
  - right. exists dc'. split; [by right | done].
Qed.

Lemma extract_lookup (path : string) (toks : list Scanned) (root : cc.Node)
    (ident comment : string) :
  extract (mkSource path (inr toks) (inr root)) !! ident = Some comment →
  ∃ dc, dc ∈ docCommentsOf toks root ∧ cc.Spelling (docs.Decl dc) = ident ∧
        docs.Lit (docs.Comm dc) = comment.
Proof.
  unfold extract, parse, parseComments, docCommentsOf.
  cbn [ReadFile ParseFile srcPath commentFromIdent logged].
  destruct (scanLoop toks) as [w comments]. cbn [fst snd].
  intros H. apply put_all_lookup in H as [H | H]; [|done].
  cbn [commentFromIdent] in H. by rewrite lookup_empty in H.
Qed.

Lemma insertedBefore_Some (decls : list cc.Node) (docComments : gmap string string)
    (lineNr : Z) (text : string) :
  insertedBefore decls docComments lineNr = Some text →
  ∃ decl comment, decl ∈ decls ∧ cc.Line (cc.Loc decl) = lineNr ∧
    docComments !! cc.Spelling decl = Some comment ∧ text = normalizeComment comment.
Proof.
  unfold insertedBefore. intros H. apply last_Some_elem_of in H.
  apply list_elem_of_omap in H as (decl & Hin & Hd).
  destruct (decide (cc.Line (cc.Loc decl) = lineNr)); [|done].
  destruct (docComments !! cc.Spelling decl) as [comment|] eqn:E; [|done].
  injection Hd as <-. by exists decl, comment.
Qed.

(** C2, as amended. Injecting the mapping extracted from a file into that
    file writes the original lines in order, each ended by a newline, and
    before each line on which a kept declaration known to the mapping
    starts it writes that declaration's normalised comment; every comment
    so written is the normalised literal of a comment which extraction
    attached, in this very file, to a declaration of that name. *)
Theorem inject_extracted_reinserts (path text : string) (toks : list Scanned)
    (root : cc.Node) :
  let m := extract (mkSource path (inr toks) (inr root)) in
  let decls := findGlobalDecls root in
  let inserted (i : nat) := insertedBefore decls m (to_u32 (Z.of_nat i + 1)) in
  fst (addComments (mkSourceFile path text root) m) =
    concatAll (imap (fun i line =>
                 match inserted i with
                 | Some comment => comment +:+ NL
                 | None => ""
                 end +:+ line +:+ NL) (Split text nl))
  ∧ ∀ (i : nat) (comment : string), inserted i = Some comment →
      ∃ decl dc, decl ∈ decls ∧ cc.Line (cc.Loc decl) = to_u32 (Z.of_nat i + 1) ∧
        dc ∈ docCommentsOf toks root ∧
        cc.Spelling (docs.Decl dc) = cc.Spelling decl ∧
        comment = normalizeComment (docs.Lit (docs.Comm dc)).
Proof.
  intros m decls inserted. split.
  - unfold addComments. cbn [fst Buf File]. rewrite writeLines_chunks.
    f_equal. apply imap_ext. intros i line _. cbn beta.
    rewrite lineComments_lookup. reflexivity.
  - intros i comment Hi. unfold inserted in Hi.
    apply insertedBefore_Some in Hi as (decl & stored & Hin & Hline & Hm & ->).
    apply extract_lookup in Hm as (dc & Hdc & Hid & <-).
    by exists decl, dc.
Qed.

(** C2 fails on the specification's own example: extracting from
    [// does foo\nint foo() {}\n] and injecting into the same text gives
    the comment twice. *)
Lemma inject_extracted_not_identity :
  extract Examples.foo_source = {[ "foo" := "// does foo" ]} ∧
  fst (addComments (mkSourceFile "foo.c" Examples.foo_text Examples.foo_root)
         (extract Examples.foo_source)) =
    "// does foo" +:+ NL +:+ "// does foo" +:+ NL +:+ "int foo() {}" +:+ NL +:+ NL ∧
  fst (addComments (mkSourceFile "foo.c" Examples.foo_text Examples.foo_root)
         (extract Examples.foo_source)) ≠ Examples.foo_text.
Proof.
  split; [by vm_compute |]. split; [by vm_compute |].
  vm_compute. discriminate.
Qed.

End roundtrip.

(** ** The extractor *)

Section order_facts.

Lemma less_false_Line (a b : cc.Location) : less a b = false → cc.Line b <= cc.Line a.
Proof.
  unfold less. destruct (cc.Line a <? cc.Line b) eqn:E; [done |].
  intros _. lia.
Qed.

#[global] Instance notAfter_total {A : Type} (loc : A -> cc.Location) : Total (notAfter loc).
Proof.
  intros x y. unfold notAfter, less. rewrite !Z.gtb_ltb.
  destruct (cc.Line (loc y) <? cc.Line (loc x)) eqn:E1,
           (cc.Line (loc x) <? cc.Line (loc y)) eqn:E2,
           (cc.Col (loc y) <? cc.Col (loc x)) eqn:E3,
           (cc.Col (loc x) <? cc.Col (loc y)) eqn:E4; auto; lia.
Qed.

#[global] Instance notAfter_trans {A : Type} (loc : A -> cc.Location) :
  Transitive (notAfter loc).
Proof.
  intros x y z. unfold notAfter, less. rewrite !Z.gtb_ltb.
  destruct (cc.Line (loc y) <? cc.Line (loc x)) eqn:E1,
           (cc.Line (loc x) <? cc.Line (loc y)) eqn:E2,
           (cc.Line (loc z) <? cc.Line (loc y)) eqn:E3,
           (cc.Line (loc y) <? cc.Line (loc z)) eqn:E4,
           (cc.Line (loc z) <? cc.Line (loc x)) eqn:E5,
           (cc.Line (loc x) <? cc.Line (loc z)) eqn:E6;
    try done; try lia; intros H1 H2; lia.
Qed.

Lemma sort_Slice_Permutation {A : Type} (loc : A -> cc.Location) (xs : list A) :
  sort_Slice loc xs ≡ₚ xs.
Proof. apply merge_sort_Permutation. Qed.

Lemma sort_Slice_sorted {A : Type} (loc : A -> cc.Location) (xs : list A) :
  StronglySorted (notAfter loc) (sort_Slice loc xs).
Proof. apply StronglySorted_merge_sort; apply _. Qed.

End order_facts.

Section association.

Lemma commEndLoc_Line_u32 (comment : docs.Comment) :
  is_u32 (cc.Line (commEndLoc comment)).
Proof. unfold commEndLoc, add32, is_u32. cbn [cc.Line]. apply Z.mod_pos_bound. done. Qed.

Lemma sub32_exact (a b : Z) : is_u32 a → is_u32 b → b <= a → sub32 a b = a - b.
Proof.
  unfold is_u32, sub32. intros Ha Hb Hle. apply Z.mod_small. lia.
Qed.

(** One declaration: the inner loop splits the comments at the cursor into
    those it passes and those it leaves, and adopts some of the former. *)
Lemma scanComments_spec (decl : cc.Node) (comments : list docs.Comment) :
  ∃ passed,
    comments = passed ++ snd (scanComments decl comments) ∧
    map docs.Comm (fst (scanComments decl comments)) `sublist_of` passed ∧
    Forall (fun dc => docs.Decl dc = decl ∧ adopts decl (docs.Comm dc))
      (fst (scanComments decl comments)).
Proof.
  induction comments as [|comment rest IH].
  - exists []. by repeat split.
  - cbn [scanComments].
    destruct (less (cc.Loc decl) (commEndLoc comment)) eqn:Hless.
    + exists []. cbn [fst snd]. repeat split; [done | constructor].
    + destruct IH as (passed & Hsplit & Hsub & Hall).
      destruct (scanComments decl rest) as [found rest'] eqn:Hscan.
      cbn [fst snd] in *. exists (comment :: passed). split; [by rewrite Hsplit at 1 |].
      destruct (sub32 (cc.Line (cc.Loc decl)) (cc.Line (commEndLoc comment)) <=? 1) eqn:Hdiff.
      * split; [by apply sublist_skip |].
        constructor; [|done]. cbn [docs.Decl docs.Comm]. repeat split; [done |].
        by apply Z.leb_le.
      * split; [by apply sublist_cons |]. done.
Qed.

End association.

Section association_claims.

Lemma addDocComments_spec (decls : list cc.Node) (comments : list docs.Comment) :
  map docs.Comm (addDocComments decls comments) `sublist_of` comments ∧
  Forall (fun dc => docs.Decl dc ∈ decls ∧ adopts (docs.Decl dc) (docs.Comm dc))
    (addDocComments decls comments) ∧
  ∃ counts : list nat,
    length counts = length decls ∧
    map docs.Decl (addDocComments decls comments) =
    mjoin (zip_with replicate counts decls).
Proof.
  revert comments. induction decls as [|decl decls IH]; intros comments.
  - cbn [addDocComments]. repeat split; [apply sublist_nil_l | constructor |].
    by exists [].
  - cbn [addDocComments].
    destruct (scanComments_spec decl comments) as (passed & Hsplit & Hsub & Hall).
    destruct (scanComments decl comments) as [found rest]. cbn [fst snd] in *.
    destruct (IH rest) as (IHsub & IHall & counts & Hlen & Hdecls).
    repeat split.
    + rewrite map_app, Hsplit. by apply sublist_app.
    + apply Forall_app. split.
      * eapply Forall_impl; [exact Hall |]. intros dc [-> Had].
        split; [left | done].
      * eapply Forall_impl; [exact IHall |]. intros dc [Hin Had].
        split; [by right | done].
    + exists (length found :: counts). split; [by cbn; rewrite Hlen |].
      rewrite map_app, Hdecls. cbn [zip_with mjoin list_join]. f_equal.
      clear -Hall. induction Hall as [|dc dcs [Hdecl _] _ IHdcs]; [done |].
      cbn [map length replicate]. by rewrite Hdecl, IHdcs.
Qed.

(** C1 fails as stated, in three ways, on inputs sorted by position.
    Two block comments before one variable, [/* a */\n/* b */ int x;], are
    both paired with it, the earlier one included (no merge of line
    comments touches them). In [// c\nint a; int b;] the comment right
    before [b], which ends on the line before it, goes to [a] alone. And
    where a comment that ends on a declaration's line began further right on
    an earlier line, the cursor stops at it, and the comment right before
    the declaration [z], on its very line, is not selected. *)
Lemma addDocComments_adopts_two_comments :
  StronglySorted (notAfter docs.Loc) [Examples.block_a; Examples.block_b] ∧
  mergeLineComments [Examples.block_a; Examples.block_b]
    = [Examples.block_a; Examples.block_b] ∧
  addDocComments [Examples.x_decl] [Examples.block_a; Examples.block_b]
    = [docs.mkDocComment Examples.x_decl Examples.block_a;
       docs.mkDocComment Examples.x_decl Examples.block_b] ∧
  StronglySorted (notAfter cc.Loc) [Cases.a_decl; Cases.b_decl] ∧
  addDocComments [Cases.a_decl; Cases.b_decl] [Cases.line_c]
    = [docs.mkDocComment Cases.a_decl Cases.line_c] ∧
  StronglySorted (notAfter cc.Loc) [Cases.y_decl; Cases.z_decl] ∧
  StronglySorted (notAfter docs.Loc) [Cases.long_a; Cases.block_c] ∧
  less (cc.Loc Cases.z_decl) (commEndLoc Cases.block_c) = false ∧
  cc.Line (cc.Loc Cases.z_decl) = cc.Line (commEndLoc Cases.block_c) ∧
  addDocComments [Cases.y_decl; Cases.z_decl] [Cases.long_a; Cases.block_c] = [].
Proof.
  repeat split; try (vm_compute; reflexivity);
    repeat constructor; vm_compute; reflexivity.
Qed.

(** C10. Where [addDocComments] subtracts, after [less(decl.Loc, commEndLoc)]
    was found false, the declaration's line is at least the comment's end
    line, and the [uint32] difference is the difference of the integers. *)
Theorem guard_excludes_wraparound (decl : cc.Node) (comment : docs.Comment) :
  is_u32 (cc.Line (cc.Loc decl)) →
  less (cc.Loc decl) (commEndLoc comment) = false →
  cc.Line (commEndLoc comment) <= cc.Line (cc.Loc decl) ∧
  sub32 (cc.Line (cc.Loc decl)) (cc.Line (commEndLoc comment))
    = cc.Line (cc.Loc decl) - cc.Line (commEndLoc comment).
Proof.
  intros Hwf Hless. pose proof (less_false_Line _ _ Hless) as Hle.
  split; [done |]. apply sub32_exact; [done | apply commEndLoc_Line_u32 | done].
Qed.

Lemma guard_excludes_wraparound_witness :
  cc.Line (commEndLoc Examples.block_a) <= cc.Line (cc.Loc Examples.x_decl) ∧
  sub32 (cc.Line (cc.Loc Examples.x_decl)) (cc.Line (commEndLoc Examples.block_a))
    = cc.Line (cc.Loc Examples.x_decl) - cc.Line (commEndLoc Examples.block_a).
Proof.
  apply (guard_excludes_wraparound Examples.x_decl Examples.block_a).
  - vm_compute. split; congruence.
  - vm_compute. reflexivity.
Defined.

End association_claims.

Section merge_claims.
Import strings.
Local Open Scope string_scope.

(** C3. On [// a\n/* c */ // d] the merger glues [// d] to [// a] across
    the block comment, loses the block comment, and gives [// d] a second
    time on its own. *)
Theorem mergeLineComments_drops_block_comment :
  StronglySorted (notAfter docs.Loc) [Examples.line_a; Examples.block_c; Examples.line_d] ∧
  mergeLineComments [Examples.line_a; Examples.block_c; Examples.line_d]
    = [docs.mkComment ("// a" +:+ NL +:+ "// d") (Examples.at_ 1 1); Examples.line_d].
Proof.
  split; [| vm_compute; reflexivity].
  repeat constructor; vm_compute; reflexivity.
Qed.

End merge_claims.

Section store_claims.

(** C6, as amended. Storing the comment of a doc comment under the
    identifier of its declaration warns exactly when the identifier has an
    entry, whatever its value, naming the identifier, the old value and the
    new; the new value is the entry afterwards and no other entry
    changes. *)
Theorem put_warns_iff_present (docComment : docs.DocComment) (st : Extractor) :
  let ident := cc.Spelling (docs.Decl docComment) in
  let new := docs.Lit (docs.Comm docComment) in
  let st' := put docComment st in
  commentFromIdent st' !! ident = Some new ∧
  (∀ other, other ≠ ident → commentFromIdent st' !! other = commentFromIdent st !! other) ∧
  (logged st' ≠ logged st ↔ is_Some (commentFromIdent st !! ident)) ∧
  (∀ old, commentFromIdent st !! ident = Some old →
     logged st' = logged st ++ [WarnPresent ident old new]).
Proof.
  intros ident new st'. subst st'. unfold put. fold ident. fold new.
  cbn [commentFromIdent logged].
  split; [apply lookup_insert_eq |].
  split; [intros other Hne; by apply lookup_insert_ne |].
  destruct (commentFromIdent st !! ident) as [old|].
  - split.
    + split; [by eexists |]. intros _ Heq.
      apply (f_equal length) in Heq. rewrite length_app in Heq. cbn in Heq. lia.
    + by intros ? [= <-].
  - split; [|done]. split; [done |]. by intros [? ?].
Qed.

(** C6 fails as stated: extracting [foo.c] when the mapping already holds
    what [foo.c] gives (the file was named twice, say) warns, although the
    value present is the value stored. *)
Lemma put_warns_on_equal_value :
  let docComment :=
    docs.mkDocComment Examples.foo_decl (docs.mkComment "// does foo" (Examples.at_ 1 1)) in
  let st := mkExtractor (extract Examples.foo_source) [] in
  commentFromIdent st !! "foo" = Some (docs.Lit (docs.Comm docComment)) ∧
  logged (put docComment st) = [WarnPresent "foo" "// does foo" "// does foo"] ∧
  ¬ (logged (put docComment st) ≠ logged st ↔
       ∃ old, commentFromIdent st !! "foo" = Some old ∧ old ≠ docs.Lit (docs.Comm docComment)).
Proof.
  cbv zeta. split; [by vm_compute |]. split; [by vm_compute |].
  intros [Hwarn _]. destruct Hwarn as (old & Hold & Hne).
  - vm_compute. discriminate.
  - vm_compute in Hold. injection Hold as <-. by apply Hne.
Qed.

End store_claims.

Section run_claims.

Lemma parseAll_app (before after : list Source) (st : Extractor) :
  parseAll (before ++ after) st =
  match parseAll before st with
  | (st', Some err) => (st', Some err)
  | (st', None) => parseAll after st'
  end.
Proof.
  revert st. induction before as [|src before IH]; intros st; [done |].
  cbn [app parseAll]. destruct (parse src st) as [st' [err|]]; [done | apply IH].
Qed.

Lemma parse_error (src : Source) (st : Extractor) (err : error) :
  ReadFile src = inl err ∨ ((∃ toks, ReadFile src = inr toks) ∧ ParseFile src = inl err) →
  ∃ warned, parse src st =
    (mkExtractor (commentFromIdent st) ((logged st ++ [DbgParsing (srcPath src)]) ++ warned),
     Some err).
Proof.
  unfold parse, parseComments.
  intros [Hread | [Hread Hparse]].
  - rewrite Hread. by exists [].
  - destruct Hread as [toks ->].
    destruct (scanLoop toks) as [w comments]. rewrite Hparse. by exists w.
Qed.

(** C4, as amended. In the extractor, when a source file cannot be read or
    the external parser fails on it, the files before it having gone
    through, the run ends there: the error is the last thing logged, by
    [log.Fatalf], the exit status is 1, no JSON file is written, the
    mapping built so far is dropped, and the files after it play no part. *)
Theorem main_stops_at_first_error (before after : list Source) (bad : Source)
    (st : Extractor) (err : error) (output : string) (WriteFile : option error) :
  parseAll before (mkExtractor ∅ []) = (st, None) →
  ReadFile bad = inl err ∨ ((∃ toks, ReadFile bad = inr toks) ∧ ParseFile bad = inl err) →
  let run := main (before ++ bad :: after) output WriteFile in
  status run = 1 ∧
  written run = None ∧
  last (stderr run) = Some (FatalError err) ∧
  run = main (before ++ [bad]) output WriteFile.
Proof.
  intros Hbefore Hbad run. subst run. unfold main.
  rewrite !parseAll_app, Hbefore. cbn [parseAll].
  destruct (parse_error bad st err Hbad) as [warned ->].
  cbn [status written stderr logged]. repeat split. apply last_snoc.
Qed.

Lemma main_stops_at_first_error_witness :
  let run := main ([Examples.foo_source] ++ Examples.gone_source :: [Examples.foo_source])
               "doc_comments.json" None in
  status run = 1 ∧
  written run = None ∧
  last (stderr run) = Some (FatalError "open gone.c: no such file or directory") ∧
  run = main ([Examples.foo_source] ++ [Examples.gone_source]) "doc_comments.json" None.
Proof.
  apply (main_stops_at_first_error [Examples.foo_source] [Examples.foo_source]
           Examples.gone_source
           (mkExtractor {[ "foo" := "// does foo" ]} [DbgParsing "foo.c"])).
  - vm_compute. reflexivity.
  - left. reflexivity.
Defined.

(** C4 fails as stated: with a missing file before [foo.c], the run exits
    with status 1 and writes nothing, and [foo.c] is never parsed; without
    the missing file it exits with status 0 and writes the mapping. *)
Lemma main_aborts_on_unreadable_file :
  main [Examples.gone_source; Examples.foo_source] "doc_comments.json" None
    = mkExit 1 None
        [DbgParsing "gone.c"; FatalError "open gone.c: no such file or directory"] ∧
  main [Examples.foo_source] "doc_comments.json" None
    = mkExit 0 (Some ("doc_comments.json", {[ "foo" := "// does foo" ]}))
        [DbgParsing "foo.c"; DbgCreating "doc_comments.json"].
Proof. split; vm_compute; reflexivity. Qed.

End run_claims.

Section declaration_claims.

(** Induction on trees, with the hypothesis for every child. *)
Lemma Node_children_ind (P : cc.Node → Prop) :
  (∀ kind spelling loc children,
     Forall P children → P (cc.mkNode kind spelling loc children)) →
  ∀ n, P n.
Proof.
  intros step. fix IH 1. intros [kind spelling loc children]. apply step.
  induction children as [|child children IHchildren]; constructor; [apply IH | done].
Qed.

Lemma preorder_self (n : cc.Node) : n ∈ cc.preorder n.
Proof. destruct n. left. Qed.

Lemma preorder_unfold (n : cc.Node) :
  cc.preorder n = n :: flat_map cc.preorder (cc.Children n).
Proof. by destruct n. Qed.

(** The traversal goes below every node it visits. *)
Lemma preorder_below (root n m : cc.Node) :
  n ∈ cc.preorder root → m ∈ cc.preorder n → m ∈ cc.preorder root.
Proof.
  revert n m. induction root as [kind spelling loc children IH] using Node_children_ind.
  intros n m Hn Hm. rewrite preorder_unfold in Hn |- *. cbn [cc.Children] in *.
  apply elem_of_cons in Hn as [-> | Hn].
  - by rewrite preorder_unfold in Hm.
  - right. apply list_elem_of_In, in_flat_map.
    apply list_elem_of_In, in_flat_map in Hn as (child & Hchild & Hn).
    exists child. split; [done |]. apply list_elem_of_In.
    rewrite Forall_forall in IH.
    apply (IH child (proj2 (list_elem_of_In _ _) Hchild) n m); [| done].
    by apply list_elem_of_In.
Qed.

Lemma preorder_child (root parent child : cc.Node) :
  parent ∈ cc.preorder root → child ∈ cc.Children parent → child ∈ cc.preorder root.
Proof.
  intros Hparent Hchild. apply (preorder_below root parent); [done |].
  rewrite preorder_unfold. right. apply list_elem_of_In, in_flat_map.
  exists child. split; [by apply list_elem_of_In |]. apply list_elem_of_In, preorder_self.
Qed.

(** What [visit] has appended when [cc.Walk] returns. *)
Lemma Walk_collects (root : cc.Node) :
  cc.Walk root
    (fun n decls => if isDeclKind (cc.Kind n) then decls ++ [n] else decls) []
  = declsAmong (cc.preorder root).
Proof.
  unfold cc.Walk, declsAmong.
  assert (Hgen : ∀ nodes acc,
    fold_left (fun acc n => if isDeclKind (cc.Kind n) then acc ++ [n] else acc) nodes acc
    = acc ++ filter (fun n => isDeclKind (cc.Kind n) = true) nodes).
  { induction nodes as [|n nodes IH]; intros acc; cbn [fold_left].
    - by rewrite app_nil_r.
    - rewrite IH. destruct (isDeclKind (cc.Kind n)) eqn:E.
      + rewrite filter_cons_True by done. by rewrite <- app_assoc.
      + rewrite filter_cons_False; [done |]. by rewrite E. }
  apply Hgen.
Qed.

Lemma findGlobalDecls_scope (file : cc.Node) :
  findGlobalDecls file = declsAmong (cc.Children (globalScope file)).
Proof.
  unfold findGlobalDecls, globalScope, declsAmong. do 2 f_equal.
  generalize (cc.Children file) as children. generalize file as acc.
  intros acc children. revert acc.
  induction children as [|child children IH]; intros acc; cbn [fold_left]; [done |].
  rewrite IH. destruct (decide (cc.Kind child = cc.Cursor_Namespace)) as [Hns | Hns].
  - rewrite filter_cons_True by done. rewrite Hns, last_cons.
    by destruct (last _).
  - rewrite filter_cons_False by done. by destruct (cc.Kind child).
Qed.

(** C7, as amended. The extractor's [findDecls] returns the variable and
    function declarations among all the nodes the traversal visits, at any
    depth (the traversal visits the children of every node it visits),
    sorted by line, then column. The injector's [findGlobalDecls] returns
    the variable and function declarations among the children of the root
    or, when the root has a namespace child, of the last such child, in the
    order of the children and without sorting them. *)
Theorem findDecls_findGlobalDecls_collect (root : cc.Node) :
  (findDecls root ≡ₚ declsAmong (cc.preorder root)) ∧
  StronglySorted (notAfter cc.Loc) (findDecls root) ∧
  (∀ parent child, parent ∈ cc.preorder root → child ∈ cc.Children parent →
     isDeclKind (cc.Kind child) = true → child ∈ findDecls root) ∧
  findGlobalDecls root = declsAmong (cc.Children (globalScope root)).
Proof.
  assert (Hperm : findDecls root ≡ₚ declsAmong (cc.preorder root)).
  { unfold findDecls. rewrite sort_Slice_Permutation. by rewrite Walk_collects. }
  split; [done |]. split; [apply sort_Slice_sorted |].
  split; [| apply findGlobalDecls_scope].
  intros parent child Hparent Hchild Hkind. rewrite Hperm.
  apply list_elem_of_filter. split; [done |]. by eapply preorder_child.
Qed.

(** C7 fails as stated, for each of the two extractors. In
    [void f() {\n  int local;\n}] the extractor's [findDecls] collects the
    local variable, which is no child of the top level. In a tree whose
    children are not in the order of their lines, the injector's
    [findGlobalDecls] returns them as they come, the later line first. *)
Lemma findDecls_collects_local_variable :
  findDecls Examples.f_root = [Examples.f_decl; Examples.local_decl] ∧
  (Examples.local_decl ∉ cc.Children Examples.f_root) ∧
  findGlobalDecls Examples.include_root = [Examples.late_decl; Examples.early_decl] ∧
  less (cc.Loc Examples.early_decl) (cc.Loc Examples.late_decl) = true.
Proof.
  split; [by vm_compute |]. split.
  - intros Hin. apply list_elem_of_singleton in Hin. discriminate.
  - split; by vm_compute.
Qed.

End declaration_claims.

Section merge_separated.
Import strings.
Local Arguments String.append : simpl nomatch.

Lemma Count_sapp (s t : string) (sep : ascii) :
  Count (s +:+ t) sep = (Count s sep + Count t sep)%nat.
Proof.
  induction s as [|c s IH]; [done |]. simpl.
  destruct (Ascii.eqb c sep); by rewrite IH.
Qed.

Lemma isConsequtive_fits (a b : docs.Comment) :
  fits a → fits b →
  isConsequtiveLineComments a b = true →
  endLine a + 1 = cc.Line (docs.Loc b).
Proof.
  unfold fits, endLine, isConsequtiveLineComments, add32, sub32, to_u32, u32_mod.
  intros [Ha1 Ha2] [Hb1 Hb2].
  destruct (HasPrefix (docs.Lit a) "//"); [|done].
  destruct (HasPrefix (docs.Lit b) "//"); [|done]. cbn [negb].
  intros Heq%Z.eqb_eq.
  rewrite (Z.mod_small (Z.of_nat _)) in Heq by lia.
  rewrite !Z.mod_small in Heq by lia. lia.
Qed.

Lemma mergeLineComment_fits (a b : docs.Comment) :
  fits a → fits b → isConsequtiveLineComments a b = true →
  fits (mergeLineComment a b) ∧ endLine (mergeLineComment a b) = endLine b.
Proof.
  intros Ha Hb Hcons. pose proof (isConsequtive_fits a b Ha Hb Hcons) as Hline.
  assert (Hend : endLine (mergeLineComment a b) = endLine b).
  { unfold endLine in *. cbn [mergeLineComment docs.Lit docs.Loc].
    rewrite !Count_sapp. change (Count NL nl) with 1%nat. lia. }
  split; [|done]. unfold fits in *. rewrite Hend.
  cbn [mergeLineComment docs.Loc]. tauto.
Qed.

(** Past a comment that starts two lines or more below the end of [a], the
    inner loop finds nothing to merge. *)
Lemma mergeInner_far (a : docs.Comment) (rest : list docs.Comment) :
  fits a → Forall fits rest →
  Forall (fun d => endLine a + 1 < cc.Line (docs.Loc d)) rest →
  mergeInner a rest = (a, O).
Proof.
  intros Ha Hfits Hfar. induction rest as [|d rest IH]; [done |].
  inversion Hfits; inversion Hfar; subst. cbn [mergeInner].
  destruct (isConsequtiveLineComments a d) eqn:Hcons; [| by apply IH].
  apply isConsequtive_fits in Hcons; [lia | done | done].
Qed.

Lemma mergeOuter_skip (k : nat) (comments : list docs.Comment) :
  mergeOuter k comments = mergeOuter O (drop k comments).
Proof.
  revert comments. induction k as [|k IH]; intros [|c comments]; try done.
  cbn [mergeOuter drop]. apply IH.
Qed.

Lemma before_trans (a b c : docs.Comment) : before a b → before b c → before a c.
Proof. unfold before, endLine. lia. Qed.

(** On separated comments the inner loop merges the run that starts at [a]
    and stops. *)
Lemma mergeInner_run (a : docs.Comment) (rest : list docs.Comment) :
  fits a → Forall fits rest → Forall (before a) rest → StronglySorted before rest →
  mergeRunsFrom a rest =
    fst (mergeInner a rest) :: mergeRuns (drop (snd (mergeInner a rest)) rest).
Proof.
  revert a. induction rest as [|b rest IH]; intros a Ha Hfits Hbefore Hsorted; [done |].
  inversion Hfits as [|? ? Hb Hfits']; inversion Hbefore as [|? ? Hab Hbefore'];
    inversion Hsorted as [|? ? Hsorted' Hbrest]; subst.
  cbn [mergeRunsFrom mergeInner].
  destruct (isConsequtiveLineComments a b) eqn:Hcons.
  - destruct (mergeLineComment_fits a b Ha Hb Hcons) as [Hm Hend].
    specialize (IH (mergeLineComment a b) Hm Hfits').
    destruct (mergeInner (mergeLineComment a b) rest) as [a' k]. cbn [fst snd drop] in *.
    apply IH; [|done]. eapply Forall_impl; [exact Hbrest |].
    intros d Hd. unfold before in *. by rewrite Hend.
  - rewrite mergeInner_far; [done | done | done |].
    eapply Forall_impl; [exact Hbrest |]. intros d Hd.
    unfold before, endLine in *. lia.
Qed.

(** X3. Where every comment starts below the end of the one before it,
    [mergeLineComments] merges exactly the runs of consecutive line
    comments. *)
Theorem mergeLineComments_separated (comments : list docs.Comment) :
  separated comments → mergeLineComments comments = mergeRuns comments.
Proof.
  intros [Hfits Hsorted]. unfold mergeLineComments.
  assert (Htrans : Transitive before) by (intros a b c; apply before_trans).
  apply Sorted_StronglySorted in Hsorted; [| exact Htrans].
  remember (length comments) as n eqn:Hn.
  assert (Hle : (length comments <= n)%nat) by lia. clear Hn.
  revert comments Hfits Hsorted Hle.
  induction n as [|n IH]; intros [|a rest] Hfits Hsorted Hle; try done.
  { cbn in Hle. lia. }
  inversion Hfits as [|? ? Ha Hfits']; inversion Hsorted as [|? ? Hsorted' Harest]; subst.
  cbn [mergeOuter mergeRuns].
  rewrite (mergeInner_run a rest) by done.
  destruct (mergeInner a rest) as [a' k]. cbn [fst snd].
  rewrite mergeOuter_skip. f_equal. apply IH.
  - by apply Forall_drop.
  - clear -Hsorted'. revert k. induction Hsorted' as [|c cs Hcs IHcs Hc]; intros [|k]; cbn;
      [constructor | constructor | by constructor | apply IHcs].
  - rewrite length_drop. cbn in Hle. lia.
Qed.

Lemma mergeLineComments_separated_witness :
  mergeLineComments
    [Examples.line_a; docs.mkComment "// b" (Examples.at_ 2 1); Examples.block_b'] =
  mergeRuns [Examples.line_a; docs.mkComment "// b" (Examples.at_ 2 1); Examples.block_b'].
Proof.
  apply (mergeLineComments_separated
           [Examples.line_a; docs.mkComment "// b" (Examples.at_ 2 1); Examples.block_b']).
  split; repeat constructor; vm_compute; congruence.
Defined.

End merge_separated.

(** * More of the two programs *)

(** ** [less] *)

Section less_facts.

Lemma less_true_iff (a b : cc.Location) :
  less a b = true ↔
  cc.Line a < cc.Line b ∨ (cc.Line a = cc.Line b ∧ cc.Col a < cc.Col b).
Proof.
  unfold less. rewrite Z.gtb_ltb.
  destruct (cc.Line a <? cc.Line b) eqn:E1; [apply Z.ltb_lt in E1 | apply Z.ltb_ge in E1].
  - split; [left; done | done].
  - destruct (cc.Line b <? cc.Line a) eqn:E2;
      [apply Z.ltb_lt in E2 | apply Z.ltb_ge in E2].
    + split; [done | lia].
    + rewrite Z.ltb_lt. lia.
Qed.

Lemma less_false_iff (a b : cc.Location) :
  less a b = false ↔
  cc.Line b < cc.Line a ∨ (cc.Line a = cc.Line b ∧ cc.Col b <= cc.Col a).
Proof.
  rewrite <- not_true_iff_false, less_true_iff. lia.
Qed.

(** X4. [less] is what [sort.Slice] asks for, a strict weak order: nothing is
    less than itself, it is transitive, and so is "neither is less", which
    holds exactly of locations with the same line and column (the file name
    plays no part). *)
Theorem less_strict_weak_order :
  (∀ a, less a a = false) ∧
  (∀ a b c, less a b = true → less b c = true → less a c = true) ∧
  (∀ a b, less a b = false ∧ less b a = false ↔
          cc.Line a = cc.Line b ∧ cc.Col a = cc.Col b) ∧
  (∀ a b c, less a b = false → less b c = false → less a c = false).
Proof.
  split; [| split; [| split]].
  - intros a. apply less_false_iff. lia.
  - intros a b c. rewrite !less_true_iff. lia.
  - intros a b. rewrite !less_false_iff. lia.
  - intros a b c. rewrite !less_false_iff. lia.
Qed.

End less_facts.

(** ** [addDocComments] on comments whose ends are in order *)

Section association_sorted.

Lemma less_true_notAfter (a b c : cc.Location) :
  less a b = true → less c b = false → less a c = true.
Proof. rewrite !less_true_iff, less_false_iff. lia. Qed.

(** With the ends in order, the inner loop passes exactly the comments that
    end at or before the declaration's start. *)
Lemma scanComments_sorted (decl : cc.Node) (comments : list docs.Comment) :
  StronglySorted (notAfter commEndLoc) comments →
  ∃ passed,
    comments = passed ++ snd (scanComments decl comments) ∧
    Forall (fun c => less (cc.Loc decl) (commEndLoc c) = false) passed ∧
    Forall (fun c => less (cc.Loc decl) (commEndLoc c) = true)
      (snd (scanComments decl comments)) ∧
    fst (scanComments decl comments) = omap (adoptIf decl) passed.
Proof.
  induction 1 as [|comment rest Hsorted IH Hrest].
  - exists []. by repeat split.
  - cbn [scanComments].
    destruct (less (cc.Loc decl) (commEndLoc comment)) eqn:Hless.
    + exists []. cbn [fst snd]. repeat split; [constructor |].
      constructor; [done |]. eapply Forall_impl; [exact Hrest |].
      intros c Hc. by apply (less_true_notAfter _ (commEndLoc comment)).
    + destruct IH as (passed & Hsplit & Hpassed & Hleft & Hfound).
      destruct (scanComments decl rest) as [found rest']. cbn [fst snd] in *.
      exists (comment :: passed). repeat split.
      * by rewrite Hsplit at 1.
      * by constructor.
      * done.
      * cbn [omap list_omap]. unfold adoptIf at 1. rewrite Hfound.
        by destruct (sub32 _ _ <=? 1).
Qed.

Lemma docCommentFor_passed (decl : cc.Node) (decls : list cc.Node)
    (passed : list docs.Comment) :
  Forall (fun c => less (cc.Loc decl) (commEndLoc c) = false) passed →
  omap (docCommentFor (decl :: decls)) passed = omap (adoptIf decl) passed.
Proof.
  intros Hpassed. apply list_omap_ext. clear -Hpassed.
  induction Hpassed as [|c cs Hc _ IH]; constructor; [|done].
  unfold docCommentFor, consumer. cbn [find]. by rewrite Hc.
Qed.

Lemma docCommentFor_left (decl : cc.Node) (decls : list cc.Node)
    (left : list docs.Comment) :
  Forall (fun c => less (cc.Loc decl) (commEndLoc c) = true) left →
  omap (docCommentFor (decl :: decls)) left = omap (docCommentFor decls) left.
Proof.
  intros Hleft. apply list_omap_ext. clear -Hleft.
  induction Hleft as [|c cs Hc _ IH]; constructor; [|done].
  unfold docCommentFor, consumer. cbn [find]. by rewrite Hc.
Qed.

Lemma addDocComments_omap (decls : list cc.Node) (comments : list docs.Comment) :
  StronglySorted (notAfter commEndLoc) comments →
  addDocComments decls comments = omap (docCommentFor decls) comments.
Proof.
  revert comments. induction decls as [|decl decls IH]; intros comments Hsorted.
  - cbn [addDocComments]. induction comments as [|c cs IHcs]; [done |].
    inversion Hsorted; subst. cbn [omap list_omap]. unfold docCommentFor at 1.
    cbn [consumer find]. by apply IHcs.
  - cbn [addDocComments].
    destruct (scanComments_sorted decl comments Hsorted)
      as (passed & Hsplit & Hpassed & Hleft & Hfound).
    destruct (scanComments decl comments) as [found rest]. cbn [fst snd] in *.
    rewrite Hsplit at 1. rewrite omap_app.
    rewrite docCommentFor_passed, docCommentFor_left by done.
    rewrite Hfound. f_equal. apply IH.
    rewrite Hsplit in Hsorted. by apply StronglySorted_app_1_r in Hsorted.
Qed.

(** X5. When no comment ends before the one listed before it, [addDocComments]
    gives each comment to the first declaration that does not start before
    the comment's end, provided that declaration starts on the line of the
    end or on the next; a comment whose first such declaration starts
    further down, or that has none, is dropped. The pairs come in the order
    of the comments. *)
Theorem addDocComments_by_comment (decls : list cc.Node) (comments : list docs.Comment) :
  Sorted (notAfter commEndLoc) comments →
  addDocComments decls comments = omap (docCommentFor decls) comments.
Proof.
  intros Hsorted. apply addDocComments_omap.
  apply Sorted_StronglySorted; [apply _ | done].
Qed.

Lemma addDocComments_by_comment_witness :
  addDocComments [Examples.foo_decl; Examples.x_decl]
    [Examples.line_a; Examples.block_b] =
  omap (docCommentFor [Examples.foo_decl; Examples.x_decl])
    [Examples.line_a; Examples.block_b].
Proof.
  apply (addDocComments_by_comment [Examples.foo_decl; Examples.x_decl]
           [Examples.line_a; Examples.block_b]).
  repeat constructor; vm_compute; reflexivity.
Defined.

(** The first declaration that does not start before the end of [comment]
    is its consumer. *)
Lemma consumer_first (before after : list cc.Node) (decl : cc.Node)
    (comment : docs.Comment) :
  Forall (fun d => less (cc.Loc d) (commEndLoc comment) = true) before →
  less (cc.Loc decl) (commEndLoc comment) = false →
  consumer (before ++ decl :: after) comment = Some decl.
Proof.
  intros Hbefore Hdecl. unfold consumer.
  induction Hbefore as [|d ds Hd _ IH]; cbn [app find].
  - by rewrite Hdecl.
  - by rewrite Hd.
Qed.

(** C1, as amended. Let the lines of the declarations be [uint32] values
    and let no comment end before the one listed before it (the end of a
    comment being what [addDocComments] takes it to be, [commEndLoc]). Then
    [addDocComments] returns, in the order of the comments, one pair for
    each comment whose first following declaration (the first declaration
    that does not start before the comment's end) starts on the line of the
    comment's end or on the next, and nothing else. So the comment right
    before a declaration is selected for it whenever it ends on the
    declaration's line or the line before and every earlier declaration
    starts before its end; a declaration may get several comments, the
    comment right before it and earlier ones that end as near; each comment
    goes to at most one declaration, the comments of the pairs being a
    subsequence of the comments given and their declarations coming in the
    order of the declarations given; and in every pair the comment ends at
    or before the declaration's start, on its line or the line before. *)
Theorem addDocComments_adopts_in_one_sweep (decls : list cc.Node)
    (comments : list docs.Comment) :
  Forall (fun decl => is_u32 (cc.Line (cc.Loc decl))) decls →
  Sorted (notAfter commEndLoc) comments →
  let found := addDocComments decls comments in
  found = omap (docCommentFor decls) comments ∧
  (∀ before decl after comment,
     decls = before ++ decl :: after →
     Forall (fun d => less (cc.Loc d) (commEndLoc comment) = true) before →
     less (cc.Loc decl) (commEndLoc comment) = false →
     comment ∈ comments →
     cc.Line (cc.Loc decl) = cc.Line (commEndLoc comment) ∨
     cc.Line (cc.Loc decl) = cc.Line (commEndLoc comment) + 1 →
     docs.mkDocComment decl comment ∈ found) ∧
  map docs.Comm found `sublist_of` comments ∧
  (∃ counts : list nat,
     length counts = length decls ∧
     map docs.Decl found = mjoin (zip_with replicate counts decls)) ∧
  Forall (fun dc =>
            let declLoc := cc.Loc (docs.Decl dc) in
            let commEnd := commEndLoc (docs.Comm dc) in
            docs.Decl dc ∈ decls ∧
            consumer decls (docs.Comm dc) = Some (docs.Decl dc) ∧
            less declLoc commEnd = false ∧
            (cc.Line declLoc = cc.Line commEnd ∨ cc.Line declLoc = cc.Line commEnd + 1))
    found.
Proof.
  intros Hwf Hsorted found.
  assert (Hfound : found = omap (docCommentFor decls) comments).
  { apply addDocComments_omap, Sorted_StronglySorted; [apply _ | done]. }
  destruct (addDocComments_spec decls comments) as (Hsub & Hall & Hcounts).
  rewrite Forall_forall in Hwf.
  split; [done |]. split; [| split; [done |]; split; [done |]].
  - intros before decl after comment -> Hbefore Hdecl Hin Hline.
    rewrite Hfound. apply list_elem_of_omap. exists comment. split; [done |].
    unfold docCommentFor. rewrite consumer_first by done. unfold adoptIf.
    assert (Hu : is_u32 (cc.Line (cc.Loc decl))).
    { apply Hwf, elem_of_app. right. left. }
    rewrite sub32_exact;
      [| done | apply commEndLoc_Line_u32 | by apply less_false_Line].
    destruct (_ <=? 1) eqn:Hdiff; [done |]. apply Z.leb_gt in Hdiff. lia.
  - apply Forall_forall. intros dc Hdc. cbv zeta.
    rewrite Forall_forall in Hall. destruct (Hall dc Hdc) as [Hin [Hless Hdiff]].
    split; [done |]. split.
    + fold found in Hdc. rewrite Hfound in Hdc.
      apply list_elem_of_omap in Hdc as (comment & _ & Hfor).
      unfold docCommentFor in Hfor.
      destruct (consumer decls comment) as [decl|] eqn:Hcons; [| done].
      unfold adoptIf in Hfor. destruct (_ <=? 1); [| done].
      injection Hfor as <-. done.
    + split; [done |].
      rewrite sub32_exact in Hdiff;
        [| by apply Hwf | apply commEndLoc_Line_u32 | by apply less_false_Line].
      apply less_false_Line in Hless. lia.
Qed.

Lemma addDocComments_adopts_in_one_sweep_witness :
  let decls := [Examples.foo_decl; Examples.x_decl] in
  let comments := [Examples.block_a; Examples.block_b] in
  let found := addDocComments decls comments in
  found = omap (docCommentFor decls) comments ∧
  (∀ before decl after comment,
     decls = before ++ decl :: after →
     Forall (fun d => less (cc.Loc d) (commEndLoc comment) = true) before →
     less (cc.Loc decl) (commEndLoc comment) = false →
     comment ∈ comments →
     cc.Line (cc.Loc decl) = cc.Line (commEndLoc comment) ∨
     cc.Line (cc.Loc decl) = cc.Line (commEndLoc comment) + 1 →
     docs.mkDocComment decl comment ∈ found) ∧
  map docs.Comm found `sublist_of` comments ∧
  (∃ counts : list nat,
     length counts = length decls ∧
     map docs.Decl found = mjoin (zip_with replicate counts decls)) ∧
  Forall (fun dc =>
            let declLoc := cc.Loc (docs.Decl dc) in
            let commEnd := commEndLoc (docs.Comm dc) in
            docs.Decl dc ∈ decls ∧
            consumer decls (docs.Comm dc) = Some (docs.Decl dc) ∧
            less declLoc commEnd = false ∧
            (cc.Line declLoc = cc.Line commEnd ∨ cc.Line declLoc = cc.Line commEnd + 1))
    found.
Proof.
  apply (addDocComments_adopts_in_one_sweep [Examples.foo_decl; Examples.x_decl]
           [Examples.block_a; Examples.block_b]).
  - repeat constructor; vm_compute; congruence.
  - repeat constructor; vm_compute; reflexivity.
Defined.

End association_sorted.

(** ** [mergeLineComments] on any comments *)

Section merge_any.
Import strings.
Local Arguments String.append : simpl nomatch.

Lemma HasPrefix_sapp_l (s t pre : string) :
  HasPrefix s pre = true → HasPrefix (s +:+ t) pre = true.
Proof.
  revert s. induction pre as [|p pre IH]; intros s; [done |].
  destruct s as [|c s]; [done |]. simpl.
  destruct (Ascii.eqb c p); [apply IH | done].
Qed.

Lemma isConsequtive_line_comments (a b : docs.Comment) :
  isConsequtiveLineComments a b = true →
  HasPrefix (docs.Lit a) "//" = true ∧ HasPrefix (docs.Lit b) "//" = true.
Proof.
  unfold isConsequtiveLineComments.
  destruct (HasPrefix (docs.Lit a) "//"); [|done].
  by destruct (HasPrefix (docs.Lit b) "//").
Qed.

(** Merging [bs] into [a] one after the other gives the literals joined by
    newlines, at the position of [a]. *)
Lemma fold_mergeLineComment (bs : list docs.Comment) (a : docs.Comment) :
  fold_left mergeLineComment bs a = joined (a, bs).
Proof.
  revert a. induction bs as [|b bs IH]; intros a.
  - by destruct a.
  - cbn [fold_left]. rewrite IH. unfold joined. cbn [fst snd fmap list_fmap].
    cbn [mergeLineComment docs.Lit docs.Loc]. f_equal.
    destruct bs as [|b2 bs]; [done |].
    cbn [fmap list_fmap]. rewrite !Join_cons by done. by rewrite !sapp_assoc.
Qed.

Lemma glued_line_comments (a : docs.Comment) (bs : list docs.Comment) :
  glued a bs →
  Forall (fun b => HasPrefix (docs.Lit b) "//" = true) bs ∧
  (bs ≠ [] → HasPrefix (docs.Lit a) "//" = true).
Proof.
  revert a. induction bs as [|b bs IH]; intros a; [done |].
  intros [Hcons Hrest]. apply isConsequtive_line_comments in Hcons as [Ha Hb].
  destruct (IH _ Hrest) as [Hbs _]. split; [by constructor | done].
Qed.

(** The inner loop merges into [a] some of the comments that follow it,
    in their order, each consecutive to what [a] has become, and counts
    them. *)
Lemma mergeInner_parts (a : docs.Comment) (rest : list docs.Comment) :
  ∃ bs, mergeInner a rest = (fold_left mergeLineComment bs a, length bs) ∧
        bs `sublist_of` rest ∧ glued a bs.
Proof.
  revert a. induction rest as [|b rest IH]; intros a.
  - by exists [].
  - cbn [mergeInner]. destruct (isConsequtiveLineComments a b) eqn:Hcons.
    + destruct (IH (mergeLineComment a b)) as (bs & -> & Hsub & Hglued).
      exists (b :: bs). split; [done |]. split; [by apply sublist_skip | done].
    + destruct (IH a) as (bs & -> & Hsub & Hglued).
      exists bs. split; [done |]. split; [by apply sublist_cons | done].
Qed.

(** The outer loop, [skip] comments being stepped over first. *)
Lemma mergeOuter_parts (skip : nat) (comments : list docs.Comment) :
  ∃ parts : list (docs.Comment * list docs.Comment),
    mergeOuter skip comments = joined <$> parts ∧
    Forall (fun part =>
              (∃ pre rest, comments = pre ++ fst part :: rest ∧
                           snd part `sublist_of` rest) ∧
              glued (fst part) (snd part)) parts ∧
    sum_list ((fun part => S (length (snd part))) <$> parts)
      = length (drop skip comments).
Proof.
  revert skip. induction comments as [|a rest IH]; intros skip.
  - exists []. destruct skip; by repeat split.
  - assert (Hshift : ∀ parts,
      Forall (fun part =>
                (∃ pre rest', rest = pre ++ fst part :: rest' ∧
                              snd part `sublist_of` rest') ∧
                glued (fst part) (snd part)) parts →
      Forall (fun part =>
                (∃ pre rest', a :: rest = pre ++ fst part :: rest' ∧
                              snd part `sublist_of` rest') ∧
                glued (fst part) (snd part)) parts).
    { intros parts Hparts. eapply Forall_impl; [exact Hparts |].
      intros part [(pre & rest' & -> & Hsub) Hglued]. split; [| done].
      by exists (a :: pre), rest'. }
    cbn [mergeOuter]. destruct skip as [|skip].
    + destruct (mergeInner_parts a rest) as (bs & -> & Hsub & Hglued).
      destruct (IH (length bs)) as (parts & -> & Hparts & Hsum).
      exists ((a, bs) :: parts). split; [by rewrite fold_mergeLineComment |].
      split.
      * constructor; [| by apply Hshift]. split; [| done]. by exists [], rest.
      * cbn [fmap list_fmap sum_list snd drop length]. rewrite Hsum, length_drop.
        apply sublist_length in Hsub. unfold id. lia.
    + destruct (IH skip) as (parts & -> & Hparts & Hsum).
      exists parts. split; [done |]. split; [by apply Hshift | done].
Qed.

(** X6. Whatever the comments, each comment [mergeLineComments] returns is
    made of a given comment and of given comments that come after it, in
    their order, merged into it one after the other: their literals joined
    by newlines, at the position of the first. Every comment merged into
    another begins with [//] and was consecutive, as
    [isConsequtiveLineComments] has it, to what it joined, and a comment
    into which something is merged begins with [//] too; the comments
    returned and the comments merged into them are together as many as the
    comments given. So a returned comment that does not begin with [//] is
    a given comment, untouched: a block comment is never merged into
    anything, nor anything into it. *)
Theorem mergeLineComments_leaves_block_comments (comments : list docs.Comment) :
  ∃ parts : list (docs.Comment * list docs.Comment),
    mergeLineComments comments = joined <$> parts ∧
    Forall (fun part =>
              (∃ pre rest, comments = pre ++ fst part :: rest ∧
                           snd part `sublist_of` rest) ∧
              glued (fst part) (snd part) ∧
              Forall (fun b => HasPrefix (docs.Lit b) "//" = true) (snd part) ∧
              (snd part ≠ [] → HasPrefix (docs.Lit (fst part)) "//" = true)) parts ∧
    sum_list ((fun part => S (length (snd part))) <$> parts) = length comments ∧
    ∀ o, o ∈ mergeLineComments comments →
         HasPrefix (docs.Lit o) "//" = false → o ∈ comments.
Proof.
  unfold mergeLineComments.
  destruct (mergeOuter_parts O comments) as (parts & Hout & Hparts & Hsum).
  exists parts. split; [done |].
  assert (Hall : Forall (fun part =>
              (∃ pre rest, comments = pre ++ fst part :: rest ∧
                           snd part `sublist_of` rest) ∧
              glued (fst part) (snd part) ∧
              Forall (fun b => HasPrefix (docs.Lit b) "//" = true) (snd part) ∧
              (snd part ≠ [] → HasPrefix (docs.Lit (fst part)) "//" = true)) parts).
  { eapply Forall_impl; [exact Hparts |]. intros part [Hin Hglued].
    destruct (glued_line_comments _ _ Hglued) as [Hbs Ha]. done. }
  split; [done |]. split; [done |].
  intros o Ho Hblock. rewrite Hout in Ho.
  apply list_elem_of_fmap in Ho as ([a bs] & -> & Hpart).
  rewrite Forall_forall in Hall.
  destruct (Hall _ Hpart) as ((pre & rest & -> & _) & _ & _ & Ha). cbn [fst snd] in *.
  destruct bs as [|b bs].
  - unfold joined. cbn. destruct a. cbn. apply elem_of_app. right. left.
  - unfold joined in Hblock. cbn [fst snd fmap list_fmap docs.Lit] in Hblock.
    rewrite Join_cons in Hblock by done.
    rewrite HasPrefix_sapp_l in Hblock by (by apply Ha). discriminate.
Qed.

End merge_any.

(** ** The mapping of the extractor *)

Section store_facts.

(** After the loop of [parse] over the doc comments, an identifier holds the
    literal of the last doc comment that names it, and what it held before
    when none does. *)
Lemma put_all_last (docComments : list docs.DocComment) (st : Extractor)
    (ident : string) :
  commentFromIdent (fold_left (fun st docComment => put docComment st) docComments st)
    !! ident =
  match last (filter (fun dc => cc.Spelling (docs.Decl dc) = ident) docComments) with
  | Some dc => Some (docs.Lit (docs.Comm dc))
  | None => commentFromIdent st !! ident
  end.
Proof.
  revert st. induction docComments as [|dc dcs IH]; intros st; [done |].
  cbn [fold_left]. rewrite IH.
  destruct (decide (cc.Spelling (docs.Decl dc) = ident)) as [Heq | Hne].
  - rewrite filter_cons_True by done. rewrite last_cons.
    destruct (last _); [done |].
    unfold put. cbn [commentFromIdent]. by rewrite Heq, lookup_insert_eq.
  - rewrite filter_cons_False by done. destruct (last _); [done |].
    unfold put. cbn [commentFromIdent]. by rewrite lookup_insert_ne.
Qed.

Lemma put_all_grows (docComments : list docs.DocComment) (st : Extractor) :
  (∀ ident, is_Some (commentFromIdent st !! ident) →
     is_Some (commentFromIdent
                (fold_left (fun st docComment => put docComment st) docComments st)
              !! ident)) ∧
  logged st `prefix_of`
    logged (fold_left (fun st docComment => put docComment st) docComments st).
Proof.
  revert st. induction docComments as [|dc dcs IH]; intros st; [done |].
  cbn [fold_left]. destruct (IH (put dc st)) as [Hdom Hlog]. split.
  - intros ident Hident. apply Hdom. unfold put. cbn [commentFromIdent].
    destruct (decide (cc.Spelling (docs.Decl dc) = ident)) as [-> | Hne].
    + by rewrite lookup_insert_eq.
    + by rewrite lookup_insert_ne.
  - etrans; [| exact Hlog]. unfold put. cbn [logged].
    destruct (commentFromIdent st !! _); [by apply prefix_app_r | done].
Qed.

(** X8. [parse] never takes an identifier out of the mapping and never takes
    back what was logged; when it returns an error the mapping is the one it
    was given. *)
Theorem parse_keeps_entries (src : Source) (st : Extractor) :
  let st' := fst (parse src st) in
  (∀ ident, is_Some (commentFromIdent st !! ident) →
     is_Some (commentFromIdent st' !! ident)) ∧
  logged st `prefix_of` logged st' ∧
  (is_Some (snd (parse src st)) → commentFromIdent st' = commentFromIdent st).
Proof.
  unfold parse.
  destruct (parseComments (ReadFile src)) as [w [err | comments]].
  - cbn. split; [done |]. split; [| done].
    rewrite <- app_assoc. by apply prefix_app_r.
  - destruct (ParseFile src) as [err | root].
    + cbn. split; [done |]. split; [| done].
      rewrite <- app_assoc. by apply prefix_app_r.
    + cbn [fst snd].
      match goal with |- context [fold_left ?f ?l ?s] =>
        destruct (put_all_grows l s) as [Hdom Hlog] end.
      cbn [commentFromIdent logged] in *. split; [done |]. split.
      * etrans; [| exact Hlog]. rewrite <- app_assoc. by apply prefix_app_r.
      * by intros [? ?].
Qed.

End store_facts.

(** ** The run of the extractor *)

Section extractor_run.

Lemma parse_succeeds_iff (src : Source) (st : Extractor) :
  snd (parse src st) = None ↔ parses src.
Proof.
  unfold parse, parseComments, parses.
  destruct (ReadFile src) as [err | toks].
  - cbn. split; [done |]. by intros [[? ?] _].
  - destruct (scanLoop toks) as [w comments].
    destruct (ParseFile src) as [err | root]; cbn.
    + split; [done |]. by intros [_ [? ?]].
    + split; [| done]. intros _. split; by eexists.
Qed.

Lemma parseAll_succeeds_iff (srcs : list Source) (st : Extractor) :
  snd (parseAll srcs st) = None ↔ Forall parses srcs.
Proof.
  revert st. induction srcs as [|src srcs IH]; intros st.
  - cbn. split; [constructor | done].
  - cbn [parseAll]. pose proof (parse_succeeds_iff src st) as Hsrc.
    destruct (parse src st) as [st' [err|]]; cbn [snd] in *.
    + split; [done |]. intros Hall. inversion Hall; subst. by apply Hsrc.
    + rewrite IH. split.
      * intros Hall. constructor; [by apply Hsrc | done].
      * intros Hall. by inversion Hall.
Qed.

(** X9. Once [flag.Parse] has returned, the extractor ends with status 0
    exactly when every file named can be read and parsed and the JSON file
    can be written, and it is then, and only then, that it writes the JSON
    file, to the output path. *)
Theorem main_succeeds_iff (args : list Source) (output : string)
    (WriteFile : option error) :
  let run := main args output WriteFile in
  (status run = 0 ↔ Forall parses args ∧ WriteFile = None) ∧
  (status run = 0 ↔ ∃ mapping, written run = Some (output, mapping)).
Proof.
  intros run. subst run. unfold main.
  pose proof (parseAll_succeeds_iff args (mkExtractor ∅ [])) as Hall.
  destruct (parseAll args (mkExtractor ∅ [])) as [st [err|]]; cbn [snd] in Hall.
  - cbn. split.
    + split; [done |]. intros [Hargs _]. by apply Hall in Hargs.
    + split; [done |]. by intros [? ?].
  - destruct WriteFile as [err|]; cbn.
    + split.
      * split; [done |]. by intros [_ ?].
      * split; [done |]. by intros [? ?].
    + split.
      * split; [| done]. intros _. split; [by apply Hall | done].
      * split; [| done]. intros _. by eexists.
Qed.

Lemma parse_last (src : Source) (st : Extractor) (ident : string) :
  parses src →
  snd (parse src st) = None ∧
  commentFromIdent (fst (parse src st)) !! ident =
  match last (filter (fun dc => cc.Spelling (docs.Decl dc) = ident)
                (docCommentsOfSource src)) with
  | Some dc => Some (docs.Lit (docs.Comm dc))
  | None => commentFromIdent st !! ident
  end.
Proof.
  intros [[toks Htoks] [root Hroot]].
  unfold parse, parseComments, docCommentsOfSource, docCommentsOf.
  rewrite Htoks, Hroot. destruct (scanLoop toks) as [w comments]. cbn [fst snd].
  split; [done |]. by rewrite put_all_last.
Qed.

Lemma parseAll_last (srcs : list Source) (st : Extractor) (ident : string) :
  Forall parses srcs →
  snd (parseAll srcs st) = None ∧
  commentFromIdent (fst (parseAll srcs st)) !! ident =
  match last (filter (fun dc => cc.Spelling (docs.Decl dc) = ident)
                (mjoin (docCommentsOfSource <$> srcs))) with
  | Some dc => Some (docs.Lit (docs.Comm dc))
  | None => commentFromIdent st !! ident
  end.
Proof.
  intros Hall. revert st. induction Hall as [|src srcs Hsrc _ IH]; intros st; [done |].
  cbn [parseAll fmap list_fmap mjoin list_join].
  destruct (parse_last src st ident Hsrc) as [Hok Hmap].
  destruct (parse src st) as [st1 r]. cbn [fst snd] in *. subst r.
  destruct (IH st1) as [IHok IHmap]. split; [done |].
  rewrite IHmap, filter_app, last_app. destruct (last (filter _ (mjoin _))); [done |].
  exact Hmap.
Qed.

(** X7. When every file named can be read and parsed and the JSON file can be
    written, the mapping the extractor writes holds, for each identifier,
    the literal of the last doc comment that names it, the files taken in
    the order of the command line and the doc comments of a file in the
    order [addDocComments] returns them; it holds nothing for an identifier
    that no doc comment names. *)
Theorem main_mapping_last_wins (args : list Source) (output : string) :
  Forall parses args →
  ∃ mapping,
    written (main args output None) = Some (output, mapping) ∧
    ∀ ident,
      mapping !! ident =
      (fun dc => docs.Lit (docs.Comm dc)) <$>
        last (filter (fun dc => cc.Spelling (docs.Decl dc) = ident)
                (mjoin (docCommentsOfSource <$> args))).
Proof.
  intros Hall. unfold main.
  pose proof (fun ident => parseAll_last args (mkExtractor ∅ []) ident Hall) as Hlast.
  destruct (parseAll args (mkExtractor ∅ [])) as [st r]. cbn [fst snd] in Hlast.
  destruct (Hlast "") as [-> _]. cbn [written].
  exists (commentFromIdent st). split; [done |].
  intros ident. destruct (Hlast ident) as [_ ->].
  cbn [commentFromIdent]. rewrite lookup_empty. by destruct (last _).
Qed.

Lemma main_mapping_last_wins_witness :
  ∃ mapping,
    written (main [Examples.foo_source; Examples.foo_source] "doc_comments.json" None)
      = Some ("doc_comments.json", mapping) ∧
    ∀ ident,
      mapping !! ident =
      (fun dc => docs.Lit (docs.Comm dc)) <$>
        last (filter (fun dc => cc.Spelling (docs.Decl dc) = ident)
                (mjoin (docCommentsOfSource <$>
                          [Examples.foo_source; Examples.foo_source]))).
Proof.
  apply (main_mapping_last_wins [Examples.foo_source; Examples.foo_source]
           "doc_comments.json").
  repeat constructor; by eexists.
Defined.

End extractor_run.

(** ** [parseComments] *)

Section scanning.

(** The tokens the loop of [parseComments] looks at: those before the first
    [EOF], and that [EOF] itself if there is one. *)
Lemma scanLoop_split (toks : list Scanned) :
  ∃ before rest,
    toks = before ++ rest ∧
    Forall (fun t => tok t ≠ EOF) before ∧
    (rest = [] ∨ ∃ t rest', rest = t :: rest' ∧ tok t = EOF) ∧
    snd (scanLoop toks) = commentOfToken <$> filter isCommentToken before ∧
    fst (scanLoop toks) = flat_map eh (flat_map errs (before ++ take 1 rest)).
Proof.
  induction toks as [|t toks IH].
  - exists [], []. repeat split; [constructor | by left].
  - destruct IH as (before & rest & Hsplit & Hbefore & Hrest & Hcomments & Hwarned).
    cbn [scanLoop]. destruct (tok t) eqn:Htok.
    + exists [], (t :: toks). cbn [fst snd app take flat_map].
      repeat split; [constructor | right; by eexists _, _ |].
      by rewrite !app_nil_r.
    + exists (t :: before), rest.
      destruct (scanLoop toks) as [w comments]. cbn [fst snd] in *.
      repeat split.
      * by rewrite Hsplit.
      * constructor; [by rewrite Htok | done].
      * done.
      * rewrite filter_cons_True by done. by rewrite Hcomments.
      * cbn [app flat_map]. by rewrite flat_map_app, Hwarned.
    + exists (t :: before), rest.
      destruct (scanLoop toks) as [w comments]. cbn [fst snd] in *.
      repeat split.
      * by rewrite Hsplit.
      * constructor; [by rewrite Htok | done].
      * done.
      * rewrite filter_cons_False; [done |]. unfold isCommentToken. by rewrite Htok.
      * cbn [app flat_map]. by rewrite flat_map_app, Hwarned.
Qed.

(** X10. For a file that can be read, [parseComments] returns no error and the
    comments of the comment tokens that come before the first [EOF], each
    with the token's literal and its position as [uint32], sorted by line
    and column; tokens after the [EOF] play no part. *)
Theorem parseComments_sorted_comments (toks : list Scanned) :
  ∃ comments before rest,
    snd (parseComments (inr toks)) = inr comments ∧
    toks = before ++ rest ∧
    Forall (fun t => tok t ≠ EOF) before ∧
    (rest = [] ∨ ∃ t rest', rest = t :: rest' ∧ tok t = EOF) ∧
    (comments ≡ₚ commentOfToken <$> filter isCommentToken before) ∧
    StronglySorted (notAfter docs.Loc) comments.
Proof.
  destruct (scanLoop_split toks)
    as (before & rest & Hsplit & Hbefore & Hrest & Hcomments & _).
  unfold parseComments. destruct (scanLoop toks) as [w comments]. cbn [snd] in *.
  exists (sort_Slice docs.Loc comments), before, rest.
  repeat split; [done | done | done | |].
  - rewrite sort_Slice_Permutation. by rewrite Hcomments.
  - apply sort_Slice_sorted.
Qed.

Lemma eh_spec (e : Position * string) :
  eh e = if decide (snd e = hashMessage) then []
         else [WarnScan (PLine (fst e)) (Column (fst e)) (snd e)].
Proof.
  unfold eh, hashMessage. destruct (String.eqb_spec (snd e) "illegal character U+0023 '#'");
    by case_decide.
Qed.

(** X11. [parseComments] never warns of the scanner's complaint about [#], and
    it warns of every other message the scanner passes to the error handler
    up to the first [EOF], with its line and column, in the order in which
    they come. *)
Theorem parseComments_warnings (toks : list Scanned) :
  ∃ before rest,
    toks = before ++ rest ∧
    Forall (fun t => tok t ≠ EOF) before ∧
    (rest = [] ∨ ∃ t rest', rest = t :: rest' ∧ tok t = EOF) ∧
    fst (parseComments (inr toks)) =
      (fun e => WarnScan (PLine (fst e)) (Column (fst e)) (snd e)) <$>
        filter (fun e => snd e ≠ hashMessage) (flat_map errs (before ++ take 1 rest)).
Proof.
  destruct (scanLoop_split toks)
    as (before & rest & Hsplit & Hbefore & Hrest & _ & Hwarned).
  unfold parseComments. destruct (scanLoop toks) as [w comments]. cbn [fst] in *.
  exists before, rest. repeat split; [done | done | done |].
  rewrite Hwarned. generalize (flat_map errs (before ++ take 1 rest)) as es.
  induction es as [|e es IH]; [done |].
  cbn [flat_map]. rewrite IH, eh_spec. case_decide.
  - by rewrite filter_cons_False by (intros ?; done).
  - by rewrite filter_cons_True by done.
Qed.

End scanning.

(** ** The declarations of the two programs *)

Section declarations_both.

Lemma globalScope_visited (root : cc.Node) : globalScope root ∈ cc.preorder root.
Proof.
  unfold globalScope.
  destruct (last (filter _ (cc.Children root))) as [ns|] eqn:Hlast; cbn [default].
  - apply last_Some_elem_of, list_elem_of_filter in Hlast as [_ Hchild].
    by apply (preorder_child root root); [apply preorder_self |].
  - apply preorder_self.
Qed.

(** X12. Every declaration the injector keeps for a tree, the extractor collects
    from the same tree: an identifier the injector looks up is one the
    extractor could have documented. *)
Theorem findGlobalDecls_among_findDecls (root : cc.Node) (decl : cc.Node) :
  decl ∈ findGlobalDecls root → decl ∈ findDecls root.
Proof.
  rewrite findGlobalDecls_scope. unfold declsAmong at 1.
  intros [Hkind Hchild]%list_elem_of_filter.
  unfold findDecls. rewrite sort_Slice_Permutation, Walk_collects.
  apply list_elem_of_filter. split; [done |].
  by apply (preorder_child root (globalScope root)); [apply globalScope_visited |].
Qed.

Lemma findGlobalDecls_among_findDecls_witness :
  Examples.foo_decl ∈ findDecls Examples.foo_root.
Proof.
  apply (findGlobalDecls_among_findDecls Examples.foo_root Examples.foo_decl).
  vm_compute. left.
Defined.

End declarations_both.

(** ** [normalizeComment] and [addComments], line by line *)

Section injector_lines.
Import strings.
Local Arguments String.append : simpl nomatch.

(** X13. A comment none of whose lines begins with three slashes is inserted as
    it is stored. *)
Theorem normalizeComment_unchanged (comment : string) :
  Forall (fun line => HasPrefix line "///" = false) (Split comment nl) →
  normalizeComment comment = comment.
Proof.
  intros Hall. unfold normalizeComment.
  rewrite <- (Join_Split comment) at 2. f_equal.
  induction Hall as [|line lines Hline _ IH]; [done |].
  cbn [map]. by rewrite Hline, IH.
Qed.

Lemma normalizeComment_unchanged_witness :
  normalizeComment ("// does foo" +:+ NL +:+ "// and bar") =
  "// does foo" +:+ NL +:+ "// and bar".
Proof.
  apply (normalizeComment_unchanged ("// does foo" +:+ NL +:+ "// and bar")).
  repeat constructor.
Defined.

Lemma Split_sapp_NL (s t : string) :
  Split (s +:+ NL +:+ t) nl = Split s nl ++ Split t nl.
Proof.
  induction s as [|c s IH]; [done |]. simpl.
  destruct (Ascii.eqb c nl); simpl in IH; rewrite IH; [done |].
  pose proof (Split_nonempty s nl). by destruct (Split s nl).
Qed.

Lemma Split_one_line (s : string) : Count s nl = 0%nat → Split s nl = [s].
Proof.
  induction s as [|c s IH]; [done |]. simpl.
  destruct (Ascii.eqb c nl); [done |]. intros Hs. by rewrite IH.
Qed.

(** The lines of what the second loop of [addComments] writes. *)
Lemma Split_writeLines (comments : gmap Z string) (i : nat) (lines : list string) :
  Forall (fun line => Count line nl = 0%nat) lines →
  Split (writeLines comments i lines) nl =
  mjoin (imap (fun j line =>
                 match comments !! to_u32 (Z.of_nat (i + j) + 1) with
                 | Some comment => Split comment nl ++ [line]
                 | None => [line]
                 end) lines) ++ [""].
Proof.
  intros Hlines. revert i. induction Hlines as [|line lines Hline _ IH]; intros i; [done |].
  cbn [writeLines imap mjoin list_join]. rewrite Nat.add_0_r.
  assert (Htail : Split ((line +:+ NL) +:+ writeLines comments (S i) lines) nl =
                  line :: Split (writeLines comments (S i) lines) nl).
  { rewrite sapp_assoc, Split_sapp_NL, Split_one_line by done. done. }
  rewrite <- app_assoc. rewrite (imap_ext _ (fun j line0 =>
      match comments !! to_u32 (Z.of_nat (S i + j) + 1) with
      | Some comment => Split comment nl ++ [line0]
      | None => [line0]
      end)) by (intros j x _; unfold compose; by rewrite Nat.add_succ_r).
  rewrite <- IH.
  destruct (comments !! to_u32 (Z.of_nat i + 1)) as [comment|].
  - rewrite sapp_assoc, Split_sapp_NL, Htail. by rewrite <- app_assoc.
  - change ("" +:+ ?t) with t. by rewrite Htail.
Qed.

Lemma sublist_inserted {A : Type} (f : nat → A → list A) (lines : list A) :
  (∀ j line, ∃ pre, f j line = pre ++ [line]) →
  lines `sublist_of` mjoin (imap f lines).
Proof.
  revert f. induction lines as [|line lines IH]; intros f Hf; [apply sublist_nil_l |].
  cbn [imap mjoin list_join]. destruct (Hf O line) as [pre ->].
  rewrite <- app_assoc. apply sublist_inserts_l. cbn [app].
  apply sublist_skip, IH. intros j x. apply (Hf (S j) x).
Qed.

(** X14. Line by line, the text [addComments] returns is the original lines,
    unmodified and in order, each preceded by the lines of the normalised
    comment of the last kept declaration that starts on it and that the
    mapping knows, when there is one, and followed at the very end by an
    empty line; so the original lines are among the lines returned, in
    their order. *)
Theorem addComments_lines (srcFile : SourceFile) (docComments : gmap string string) :
  let lines := Split (Buf srcFile) nl in
  let inserted (i : nat) :=
    insertedBefore (findGlobalDecls (File srcFile)) docComments
      (to_u32 (Z.of_nat i + 1)) in
  let out := Split (fst (addComments srcFile docComments)) nl in
  out = mjoin (imap (fun i line =>
                       match inserted i with
                       | Some comment => Split comment nl ++ [line]
                       | None => [line]
                       end) lines) ++ [""] ∧
  lines `sublist_of` out.
Proof.
  intros lines inserted out.
  assert (Hout : out = mjoin (imap (fun i line =>
                       match inserted i with
                       | Some comment => Split comment nl ++ [line]
                       | None => [line]
                       end) lines) ++ [""]).
  { subst out. unfold addComments. cbn [fst].
    rewrite Split_writeLines by apply Count_Split. do 2 f_equal.
    apply imap_ext. intros i line _. cbn beta.
    by rewrite lineComments_lookup. }
  split; [done |]. rewrite Hout. apply sublist_inserts_r, sublist_inserted.
  intros j line. destruct (inserted j) as [comment|]; [by eexists | by exists []].
Qed.

End injector_lines.

(** ** [insert] *)

Section insert_facts.

(** X15. [insert] succeeds exactly for a position from 0 to the length of the
    slice; the result is one longer, holds the new string at that position,
    the strings before it where they were and the strings from it on one
    place further. *)
Theorem insert_spec (ss : list string) (pos : Z) (s : string) :
  (is_Some (addcdocs.insert ss pos s) ↔ 0 <= pos <= Z.of_nat (length ss)) ∧
  ∀ out, addcdocs.insert ss pos s = Some out →
    length out = S (length ss) ∧
    out !! Z.to_nat pos = Some s ∧
    (∀ i, (i < Z.to_nat pos)%nat → out !! i = ss !! i) ∧
    (∀ i, (Z.to_nat pos <= i)%nat → out !! S i = ss !! i).
Proof.
  unfold addcdocs.insert.
  destruct ((0 <=? pos) && (pos <=? Z.of_nat (length ss))) eqn:Hpos.
  - apply andb_true_iff in Hpos as [H0%Z.leb_le Hlen%Z.leb_le].
    split; [split; [lia | by eexists] |].
    intros out [= <-].
    assert (Htake : length (take (Z.to_nat pos) ss) = Z.to_nat pos)
      by (rewrite length_take; lia).
    repeat split.
    + rewrite length_app, Htake. cbn [length]. rewrite length_drop. lia.
    + rewrite lookup_app_r by lia. by rewrite Htake, Nat.sub_diag.
    + intros i Hi. rewrite lookup_app_l by lia. by apply lookup_take_lt.
    + intros i Hi. rewrite lookup_app_r by lia. rewrite Htake.
      replace (S i - Z.to_nat pos)%nat with (S (i - Z.to_nat pos)) by lia.
      replace i with (Z.to_nat pos + (i - Z.to_nat pos))%nat at 2 by lia.
      by rewrite <- lookup_drop.
  - apply andb_false_iff in Hpos.
    split; [| done]. split; [by intros [? ?] |].
    intros [H0 Hlen]. destruct Hpos as [Hpos%Z.leb_gt | Hpos%Z.leb_gt]; lia.
Qed.

End insert_facts.

(** ** The run of the injector *)

Section injector_run.
Import strings.
Local Arguments String.append : simpl nomatch.

Lemma addComments_longer (srcFile : SourceFile) (docComments : gmap string string) :
  ∃ new, addComments srcFile docComments = (new, true) ∧
         (String.length (Buf srcFile) < String.length new)%nat.
Proof.
  unfold addComments.
  set (new := writeLines _ O _).
  assert (Hlen : (String.length (Buf srcFile) < String.length new)%nat).
  { subst new. pose proof (length_writeLines
      (lineComments (findGlobalDecls (File srcFile)) docComments) 0
      (Split (Buf srcFile) nl)) as Hlen.
    rewrite writeLines_empty, length_sapp in Hlen. simpl in Hlen. lia. }
  exists new. split; [| done]. f_equal.
  apply negb_true_iff, String.eqb_neq. intros Heq. rewrite <- Heq in Hlen. lia.
Qed.

(** The loop body stops only with status 1 or 2. *)
Lemma processFile_stop (w : addcdocs.World) (docComments : gmap string string)
    (srcPath : string) (st st' : addcdocs.Run) (code : Z) :
  addcdocs.processFile w docComments srcPath st = (st', Some code) → code = 1 ∨ code = 2.
Proof.
  unfold addcdocs.processFile.
  destruct (addcdocs.parseSourceFile _ _ _) as [srcFile err].
  destruct (addcdocs.File srcFile) as [root|]; [| intros [= _ <-]; by right].
  destruct (addComments _ _) as [src change]. destruct change; [| done].
  destruct (addcdocs.WriteError w srcPath); [intros [= _ <-]; by left | done].
Qed.

(** When the loop body goes on to the next file, it has replaced the file by
    a longer text and said so. *)
Lemma processFile_continue (w : addcdocs.World) (docComments : gmap string string)
    (srcPath : string) (st st' : addcdocs.Run) :
  addcdocs.processFile w docComments srcPath st = (st', None) →
  ∃ old new,
    addcdocs.files st !! srcPath = Some old ∧
    addcdocs.files st' = <[srcPath := new]> (addcdocs.files st) ∧
    (String.length old < String.length new)%nat ∧
    rewritten (addcdocs.events st') = rewritten (addcdocs.events st) ++ [srcPath].
Proof.
  unfold addcdocs.processFile, addcdocs.parseSourceFile.
  destruct (addcdocs.files st !! srcPath) as [old|] eqn:Hold; [| by destruct st].
  destruct (addcdocs.ParseFile w (addcdocs.files st) srcPath) as [file err].
  cbn [addcdocs.File addcdocs.Path addcdocs.Buf].
  destruct file as [root|]; [| by destruct err].
  destruct (addComments_longer (mkSourceFile srcPath old root) docComments)
    as (new & -> & Hlen). cbn [Buf] in Hlen.
  destruct (addcdocs.WriteError w srcPath); [by destruct err |].
  intros [= <-]. exists old, new. cbn [addcdocs.files addcdocs.events].
  repeat split; [by destruct err | done |].
  unfold rewritten. destruct err; cbn [addcdocs.events];
    rewrite ?omap_app; cbn; by rewrite ?app_nil_r.
Qed.

Lemma grown_refl (fs : gmap string string) : grown [] fs fs.
Proof.
  intros p. destruct (fs !! p); [| done].
  case_decide as Hin; [by apply elem_of_nil in Hin | done].
Qed.

Lemma grown_step (srcPath : string) (rest : list string) (old new : string)
    (fs after : gmap string string) :
  fs !! srcPath = Some old → (String.length old < String.length new)%nat →
  grown rest (<[srcPath := new]> fs) after →
  grown (srcPath :: rest) fs after.
Proof.
  intros Hold Hlen Hrest p. specialize (Hrest p).
  destruct (decide (p = srcPath)) as [-> | Hne].
  - rewrite lookup_insert_eq in Hrest. rewrite Hold.
    destruct (after !! srcPath) as [final|]; [| done].
    rewrite decide_True by left. case_decide; [lia | by subst].
  - rewrite lookup_insert_ne in Hrest by done.
    destruct (fs !! p), (after !! p); try done.
    case_decide as Hin.
    + rewrite decide_True by (by right). done.
    + rewrite decide_False; [done |]. by intros [? | ?]%elem_of_cons.
Qed.

Lemma processFiles_done (w : addcdocs.World) (docComments : gmap string string)
    (srcPaths : list string) (st st' : addcdocs.Run) :
  addcdocs.processFiles w docComments srcPaths st = (st', 0) →
  rewritten (addcdocs.events st') = rewritten (addcdocs.events st) ++ srcPaths ∧
  grown srcPaths (addcdocs.files st) (addcdocs.files st').
Proof.
  revert st. induction srcPaths as [|srcPath rest IH]; intros st.
  - cbn. intros [= <-]. rewrite app_nil_r. split; [done | apply grown_refl].
  - cbn [addcdocs.processFiles].
    destruct (addcdocs.processFile w docComments srcPath st) as [st1 [code|]] eqn:Hfile.
    + intros [= _ ->]. apply processFile_stop in Hfile as [? | ?]; done.
    + intros Hrest. apply IH in Hrest as [Hlog Hgrown].
      apply processFile_continue in Hfile as (old & new & Hold & Hfiles & Hlen & Hlog1).
      split; [by rewrite Hlog, Hlog1, <- app_assoc |].
      rewrite Hfiles in Hgrown. by eapply grown_step.
Qed.

Lemma processFiles_app (w : addcdocs.World) (docComments : gmap string string)
    (before after : list string) (st st' : addcdocs.Run) :
  addcdocs.processFiles w docComments before st = (st', 0) →
  addcdocs.processFiles w docComments (before ++ after) st =
  addcdocs.processFiles w docComments after st'.
Proof.
  revert st. induction before as [|srcPath before IH]; intros st.
  - cbn. by intros [= <-].
  - cbn [app addcdocs.processFiles].
    destruct (addcdocs.processFile w docComments srcPath st) as [st1 [code|]] eqn:Hfile.
    + intros [= _ ->]. apply processFile_stop in Hfile as [? | ?]; done.
    + apply IH.
Qed.

(** X16. When the injector exits with status 0 it has rewritten every file named
    on the command line, in order, whether or not a comment went into it:
    each of them is longer than before, and no other file has changed, come
    or gone. *)
Theorem injector_rewrites_every_file (w : addcdocs.World)
    (docComments : gmap string string) (srcPaths : list string)
    (fs : gmap string string) (st : addcdocs.Run) :
  addcdocs.main w (inr docComments) srcPaths fs = (st, 0) →
  rewritten (addcdocs.events st) = srcPaths ∧
  grown srcPaths fs (addcdocs.files st).
Proof.
  unfold addcdocs.main. intros Hrun. by apply processFiles_done in Hrun.
Qed.

Lemma injector_rewrites_every_file_witness :
  rewritten (addcdocs.events
               (fst (addcdocs.main Runs.world (inr Runs.foo_docs) ["foo.c"] Runs.files)))
    = ["foo.c"] ∧
  grown ["foo.c"] Runs.files
    (addcdocs.files
       (fst (addcdocs.main Runs.world (inr Runs.foo_docs) ["foo.c"] Runs.files))).
Proof.
  apply (injector_rewrites_every_file Runs.world Runs.foo_docs ["foo.c"] Runs.files
           (fst (addcdocs.main Runs.world (inr Runs.foo_docs) ["foo.c"] Runs.files))).
  vm_compute. reflexivity.
Defined.

(** X17. When a file named on the command line does not exist at its turn, the
    files before it having been rewritten, the injector warns of the read
    error and then panics on the missing tree: exit status 2, that file and
    the files after it untouched. *)
Theorem injector_panics_on_missing_file (w : addcdocs.World)
    (docComments : gmap string string) (before after : list string) (srcPath : string)
    (fs : gmap string string) (st : addcdocs.Run) :
  addcdocs.main w (inr docComments) before fs = (st, 0) →
  addcdocs.files st !! srcPath = None →
  addcdocs.main w (inr docComments) (before ++ srcPath :: after) fs =
    (addcdocs.mkRun (addcdocs.files st)
       (addcdocs.events st ++
          [addcdocs.Warned (addcdocs.noSuchFile srcPath); addcdocs.NilDereference]),
     2).
Proof.
  unfold addcdocs.main. intros Hbefore Hmissing.
  rewrite (processFiles_app _ _ _ _ _ _ Hbefore).
  cbn [addcdocs.processFiles]. unfold addcdocs.processFile, addcdocs.parseSourceFile.
  rewrite Hmissing. cbn. by rewrite <- app_assoc.
Qed.

Lemma injector_panics_on_missing_file_witness :
  addcdocs.main Runs.world (inr Runs.foo_docs) (["foo.c"] ++ "bar.c" :: ["foo.c"]) Runs.files =
    (addcdocs.mkRun
       (addcdocs.files
          (fst (addcdocs.main Runs.world (inr Runs.foo_docs) ["foo.c"] Runs.files)))
       (addcdocs.events
          (fst (addcdocs.main Runs.world (inr Runs.foo_docs) ["foo.c"] Runs.files)) ++
          [addcdocs.Warned (addcdocs.noSuchFile "bar.c"); addcdocs.NilDereference]),
     2).
Proof.
  apply (injector_panics_on_missing_file Runs.world Runs.foo_docs ["foo.c"] ["foo.c"]
           "bar.c" Runs.files
           (fst (addcdocs.main Runs.world (inr Runs.foo_docs) ["foo.c"] Runs.files))).
  - vm_compute. reflexivity.
  - vm_compute. reflexivity.
Defined.

End injector_run.
